(** * YASK stencil compiler: the command-line driver and the run-time
      stencil wrappers

    A shallow embedding of

    - [src/compiler/compiler_main.cpp]: the solution registry and the
      constructor that fills it, [usage], [parseOpts] and [main];
    - [src/stencil_calc.hpp]: [StencilContext::compare], and
      [StencilTemplate::calc_cluster] with [calc_block].

    The driver is a program over global variables, two output streams and
    [exit]; it is embedded in a state monad over those globals whose results
    distinguish a normal return, a call of [exit], a thrown
    [yask_exception] and a failed [assert]. *)

From Stdlib Require Import ZArith Lia String Ascii List.
From stdpp Require Import base option list gmap strings sorting pretty.

Open Scope string_scope.
Open Scope list_scope.
Open Scope Z_scope.

(** ** Strings and numbers as the C++ streams print and read them *)

Definition nl : string := String "010"%char EmptyString.
Definition dquote : string := String "034"%char EmptyString.

(** A literal followed by a newline or by [endl]. *)
Definition ln (s : string) : string := s +:+ nl.

(** The concatenation of the pieces of one chain of [<<]. *)
Definition cat (l : list string) : string := foldr String.append EmptyString l.

(** [operator<<(int)] and [operator<<(bool)] (no [boolalpha]). *)
Definition show_int (z : Z) : string := pretty z.
Definition show_bool (b : bool) : string := if b then "1" else "0".

(** [isspace] in the C locale. *)
Definition isspace (c : ascii) : bool :=
  let n := nat_of_ascii c in
  (n =? 32)%nat || ((9 <=? n)%nat && (n <=? 13)%nat).

Definition digit_of (c : ascii) : option Z :=
  let n := Z.of_nat (nat_of_ascii c) in
  if (48 <=? n) && (n <=? 57) then Some (n - 48) else None.

Fixpoint atoi_digits (acc : Z) (s : string) : Z :=
  match s with
  | String c s' =>
      match digit_of c with
      | Some d => atoi_digits (10 * acc + d) s'
      | None => acc
      end
  | EmptyString => acc
  end.

Fixpoint skip_space (s : string) : string :=
  match s with
  | String c s' => if isspace c then skip_space s' else s
  | EmptyString => s
  end.

(** [atoi]: leading white space, an optional sign, then the longest run of
    decimal digits; 0 when there is none.  The value is the mathematical one:
    the C function is undefined once it leaves the range of [int]. *)
Definition atoi (s : string) : Z :=
  match skip_space s with
  | String "-" s' => - atoi_digits 0 s'
  | String "+" s' => atoi_digits 0 s'
  | s' => atoi_digits 0 s'
  end.

(** [argv[argi][0] == '-' && argv[argi][1]]: a dash followed by at least one
    more character (a C string holds no NUL before its end). *)
Definition is_option (s : string) : bool :=
  match s with
  | String "-" (String _ _) => true
  | _ => false
  end.

(** [name.rfind(p, 0) == 0]: [name] starts with [p]. *)
Definition starts_with (p name : string) : bool := String.prefix p name.

(** ** The settings record

    [CompilerSettings] is declared in a header that is not part of the two
    files; these are the members the driver reads and writes.  A tuple of
    named integers ([_foldOptions], [_clusterOptions]) is a list of pairs. *)

Definition IntTuple : Type := list (string * Z).

Record CompilerSettings : Type := mkSettings {
  _elem_bytes : Z;
  _firstInner : bool;
  _allowUnalignedLoads : bool;
  _doComb : bool;
  _doCse : bool;
  _doPairs : bool;
  _doOptCluster : bool;
  _findDeps : bool;
  _bundleScratch : bool;
  _printEqs : bool;
  _innerMisc : bool;
  _varRegex : string;
  _eqBundleTargets : string;
  _stepDim : string;
  _domainDims : list string;
  _foldOptions : IntTuple;
  _clusterOptions : IntTuple;
  _maxExprSize : Z;
  _minExprSize : Z;
  _haloSize : Z;
  _stepAlloc : Z;
  _eq_bundle_basename_default : string
}.

Definition set_elem_bytes (v : Z) (s : CompilerSettings) : CompilerSettings :=
  mkSettings v (_firstInner s) (_allowUnalignedLoads s) (_doComb s)
    (_doCse s) (_doPairs s) (_doOptCluster s) (_findDeps s) (_bundleScratch s)
    (_printEqs s) (_innerMisc s) (_varRegex s) (_eqBundleTargets s)
    (_stepDim s) (_domainDims s) (_foldOptions s) (_clusterOptions s)
    (_maxExprSize s) (_minExprSize s) (_haloSize s) (_stepAlloc s)
    (_eq_bundle_basename_default s).
Definition set_firstInner (v : bool) (s : CompilerSettings) : CompilerSettings :=
  mkSettings (_elem_bytes s) v (_allowUnalignedLoads s) (_doComb s)
    (_doCse s) (_doPairs s) (_doOptCluster s) (_findDeps s) (_bundleScratch s)
    (_printEqs s) (_innerMisc s) (_varRegex s) (_eqBundleTargets s)
    (_stepDim s) (_domainDims s) (_foldOptions s) (_clusterOptions s)
    (_maxExprSize s) (_minExprSize s) (_haloSize s) (_stepAlloc s)
    (_eq_bundle_basename_default s).
Definition set_allowUnalignedLoads (v : bool) (s : CompilerSettings) : CompilerSettings :=
  mkSettings (_elem_bytes s) (_firstInner s) v (_doComb s) (_doCse s)
    (_doPairs s) (_doOptCluster s) (_findDeps s) (_bundleScratch s)
    (_printEqs s) (_innerMisc s) (_varRegex s) (_eqBundleTargets s)
    (_stepDim s) (_domainDims s) (_foldOptions s) (_clusterOptions s)
    (_maxExprSize s) (_minExprSize s) (_haloSize s) (_stepAlloc s)
    (_eq_bundle_basename_default s).
Definition set_doComb (v : bool) (s : CompilerSettings) : CompilerSettings :=
  mkSettings (_elem_bytes s) (_firstInner s) (_allowUnalignedLoads s) v
    (_doCse s) (_doPairs s) (_doOptCluster s) (_findDeps s) (_bundleScratch
    s) (_printEqs s) (_innerMisc s) (_varRegex s) (_eqBundleTargets s)
    (_stepDim s) (_domainDims s) (_foldOptions s) (_clusterOptions s)
    (_maxExprSize s) (_minExprSize s) (_haloSize s) (_stepAlloc s)
    (_eq_bundle_basename_default s).
Definition set_doCse (v : bool) (s : CompilerSettings) : CompilerSettings :=
  mkSettings (_elem_bytes s) (_firstInner s) (_allowUnalignedLoads s)
    (_doComb s) v (_doPairs s) (_doOptCluster s) (_findDeps s)
    (_bundleScratch s) (_printEqs s) (_innerMisc s) (_varRegex s)
    (_eqBundleTargets s) (_stepDim s) (_domainDims s) (_foldOptions s)
    (_clusterOptions s) (_maxExprSize s) (_minExprSize s) (_haloSize s)
    (_stepAlloc s) (_eq_bundle_basename_default s).
Definition set_doPairs (v : bool) (s : CompilerSettings) : CompilerSettings :=
  mkSettings (_elem_bytes s) (_firstInner s) (_allowUnalignedLoads s)
    (_doComb s) (_doCse s) v (_doOptCluster s) (_findDeps s) (_bundleScratch
    s) (_printEqs s) (_innerMisc s) (_varRegex s) (_eqBundleTargets s)
    (_stepDim s) (_domainDims s) (_foldOptions s) (_clusterOptions s)
    (_maxExprSize s) (_minExprSize s) (_haloSize s) (_stepAlloc s)
    (_eq_bundle_basename_default s).
Definition set_doOptCluster (v : bool) (s : CompilerSettings) : CompilerSettings :=
  mkSettings (_elem_bytes s) (_firstInner s) (_allowUnalignedLoads s)
    (_doComb s) (_doCse s) (_doPairs s) v (_findDeps s) (_bundleScratch s)
    (_printEqs s) (_innerMisc s) (_varRegex s) (_eqBundleTargets s)
    (_stepDim s) (_domainDims s) (_foldOptions s) (_clusterOptions s)
    (_maxExprSize s) (_minExprSize s) (_haloSize s) (_stepAlloc s)
    (_eq_bundle_basename_default s).
Definition set_findDeps (v : bool) (s : CompilerSettings) : CompilerSettings :=
  mkSettings (_elem_bytes s) (_firstInner s) (_allowUnalignedLoads s)
    (_doComb s) (_doCse s) (_doPairs s) (_doOptCluster s) v (_bundleScratch
    s) (_printEqs s) (_innerMisc s) (_varRegex s) (_eqBundleTargets s)
    (_stepDim s) (_domainDims s) (_foldOptions s) (_clusterOptions s)
    (_maxExprSize s) (_minExprSize s) (_haloSize s) (_stepAlloc s)
    (_eq_bundle_basename_default s).
Definition set_bundleScratch (v : bool) (s : CompilerSettings) : CompilerSettings :=
  mkSettings (_elem_bytes s) (_firstInner s) (_allowUnalignedLoads s)
    (_doComb s) (_doCse s) (_doPairs s) (_doOptCluster s) (_findDeps s) v
    (_printEqs s) (_innerMisc s) (_varRegex s) (_eqBundleTargets s)
    (_stepDim s) (_domainDims s) (_foldOptions s) (_clusterOptions s)
    (_maxExprSize s) (_minExprSize s) (_haloSize s) (_stepAlloc s)
    (_eq_bundle_basename_default s).
Definition set_printEqs (v : bool) (s : CompilerSettings) : CompilerSettings :=
  mkSettings (_elem_bytes s) (_firstInner s) (_allowUnalignedLoads s)
    (_doComb s) (_doCse s) (_doPairs s) (_doOptCluster s) (_findDeps s)
    (_bundleScratch s) v (_innerMisc s) (_varRegex s) (_eqBundleTargets s)
    (_stepDim s) (_domainDims s) (_foldOptions s) (_clusterOptions s)
    (_maxExprSize s) (_minExprSize s) (_haloSize s) (_stepAlloc s)
    (_eq_bundle_basename_default s).
Definition set_innerMisc (v : bool) (s : CompilerSettings) : CompilerSettings :=
  mkSettings (_elem_bytes s) (_firstInner s) (_allowUnalignedLoads s)
    (_doComb s) (_doCse s) (_doPairs s) (_doOptCluster s) (_findDeps s)
    (_bundleScratch s) (_printEqs s) v (_varRegex s) (_eqBundleTargets s)
    (_stepDim s) (_domainDims s) (_foldOptions s) (_clusterOptions s)
    (_maxExprSize s) (_minExprSize s) (_haloSize s) (_stepAlloc s)
    (_eq_bundle_basename_default s).
Definition set_varRegex (v : string) (s : CompilerSettings) : CompilerSettings :=
  mkSettings (_elem_bytes s) (_firstInner s) (_allowUnalignedLoads s)
    (_doComb s) (_doCse s) (_doPairs s) (_doOptCluster s) (_findDeps s)
    (_bundleScratch s) (_printEqs s) (_innerMisc s) v (_eqBundleTargets s)
    (_stepDim s) (_domainDims s) (_foldOptions s) (_clusterOptions s)
    (_maxExprSize s) (_minExprSize s) (_haloSize s) (_stepAlloc s)
    (_eq_bundle_basename_default s).
Definition set_eqBundleTargets (v : string) (s : CompilerSettings) : CompilerSettings :=
  mkSettings (_elem_bytes s) (_firstInner s) (_allowUnalignedLoads s)
    (_doComb s) (_doCse s) (_doPairs s) (_doOptCluster s) (_findDeps s)
    (_bundleScratch s) (_printEqs s) (_innerMisc s) (_varRegex s) v
    (_stepDim s) (_domainDims s) (_foldOptions s) (_clusterOptions s)
    (_maxExprSize s) (_minExprSize s) (_haloSize s) (_stepAlloc s)
    (_eq_bundle_basename_default s).
Definition set_stepDim (v : string) (s : CompilerSettings) : CompilerSettings :=
  mkSettings (_elem_bytes s) (_firstInner s) (_allowUnalignedLoads s)
    (_doComb s) (_doCse s) (_doPairs s) (_doOptCluster s) (_findDeps s)
    (_bundleScratch s) (_printEqs s) (_innerMisc s) (_varRegex s)
    (_eqBundleTargets s) v (_domainDims s) (_foldOptions s) (_clusterOptions
    s) (_maxExprSize s) (_minExprSize s) (_haloSize s) (_stepAlloc s)
    (_eq_bundle_basename_default s).
Definition set_domainDims (v : list string) (s : CompilerSettings) : CompilerSettings :=
  mkSettings (_elem_bytes s) (_firstInner s) (_allowUnalignedLoads s)
    (_doComb s) (_doCse s) (_doPairs s) (_doOptCluster s) (_findDeps s)
    (_bundleScratch s) (_printEqs s) (_innerMisc s) (_varRegex s)
    (_eqBundleTargets s) (_stepDim s) v (_foldOptions s) (_clusterOptions s)
    (_maxExprSize s) (_minExprSize s) (_haloSize s) (_stepAlloc s)
    (_eq_bundle_basename_default s).
Definition set_foldOptions (v : IntTuple) (s : CompilerSettings) : CompilerSettings :=
  mkSettings (_elem_bytes s) (_firstInner s) (_allowUnalignedLoads s)
    (_doComb s) (_doCse s) (_doPairs s) (_doOptCluster s) (_findDeps s)
    (_bundleScratch s) (_printEqs s) (_innerMisc s) (_varRegex s)
    (_eqBundleTargets s) (_stepDim s) (_domainDims s) v (_clusterOptions s)
    (_maxExprSize s) (_minExprSize s) (_haloSize s) (_stepAlloc s)
    (_eq_bundle_basename_default s).
Definition set_clusterOptions (v : IntTuple) (s : CompilerSettings) : CompilerSettings :=
  mkSettings (_elem_bytes s) (_firstInner s) (_allowUnalignedLoads s)
    (_doComb s) (_doCse s) (_doPairs s) (_doOptCluster s) (_findDeps s)
    (_bundleScratch s) (_printEqs s) (_innerMisc s) (_varRegex s)
    (_eqBundleTargets s) (_stepDim s) (_domainDims s) (_foldOptions s) v
    (_maxExprSize s) (_minExprSize s) (_haloSize s) (_stepAlloc s)
    (_eq_bundle_basename_default s).
Definition set_maxExprSize (v : Z) (s : CompilerSettings) : CompilerSettings :=
  mkSettings (_elem_bytes s) (_firstInner s) (_allowUnalignedLoads s)
    (_doComb s) (_doCse s) (_doPairs s) (_doOptCluster s) (_findDeps s)
    (_bundleScratch s) (_printEqs s) (_innerMisc s) (_varRegex s)
    (_eqBundleTargets s) (_stepDim s) (_domainDims s) (_foldOptions s)
    (_clusterOptions s) v (_minExprSize s) (_haloSize s) (_stepAlloc s)
    (_eq_bundle_basename_default s).
Definition set_minExprSize (v : Z) (s : CompilerSettings) : CompilerSettings :=
  mkSettings (_elem_bytes s) (_firstInner s) (_allowUnalignedLoads s)
    (_doComb s) (_doCse s) (_doPairs s) (_doOptCluster s) (_findDeps s)
    (_bundleScratch s) (_printEqs s) (_innerMisc s) (_varRegex s)
    (_eqBundleTargets s) (_stepDim s) (_domainDims s) (_foldOptions s)
    (_clusterOptions s) (_maxExprSize s) v (_haloSize s) (_stepAlloc s)
    (_eq_bundle_basename_default s).
Definition set_haloSize (v : Z) (s : CompilerSettings) : CompilerSettings :=
  mkSettings (_elem_bytes s) (_firstInner s) (_allowUnalignedLoads s)
    (_doComb s) (_doCse s) (_doPairs s) (_doOptCluster s) (_findDeps s)
    (_bundleScratch s) (_printEqs s) (_innerMisc s) (_varRegex s)
    (_eqBundleTargets s) (_stepDim s) (_domainDims s) (_foldOptions s)
    (_clusterOptions s) (_maxExprSize s) (_minExprSize s) v (_stepAlloc s)
    (_eq_bundle_basename_default s).
Definition set_stepAlloc (v : Z) (s : CompilerSettings) : CompilerSettings :=
  mkSettings (_elem_bytes s) (_firstInner s) (_allowUnalignedLoads s)
    (_doComb s) (_doCse s) (_doPairs s) (_doOptCluster s) (_findDeps s)
    (_bundleScratch s) (_printEqs s) (_innerMisc s) (_varRegex s)
    (_eqBundleTargets s) (_stepDim s) (_domainDims s) (_foldOptions s)
    (_clusterOptions s) (_maxExprSize s) (_minExprSize s) (_haloSize s) v
    (_eq_bundle_basename_default s).

(** Modelled from the spec: the default-constructed settings object, of
    which the sources only show the uses.  The spec lists the defaults
    [elem_bytes=4], [find_deps=true], [print_eqs=false], empty fold and
    cluster, [var_regex=".*"], no bundle targets, [bundle_scratch=false],
    automatic halo and step allocation (written 0 here),
    [interleave_misc=false], [first_inner=false],
    [allow_unaligned_loads=false], the four optimizations on, [min_es=2] and
    [max_es=50].  The default bundle base name is an argument. *)
Definition default_settings (basename : string) : CompilerSettings :=
  {| _elem_bytes := 4; _firstInner := false; _allowUnalignedLoads := false;
     _doComb := true; _doCse := true; _doPairs := true; _doOptCluster := true;
     _findDeps := true; _bundleScratch := false; _printEqs := false;
     _innerMisc := false; _varRegex := ".*"; _eqBundleTargets := EmptyString;
     _stepDim := EmptyString; _domainDims := []; _foldOptions := [];
     _clusterOptions := []; _maxExprSize := 50; _minExprSize := 2;
     _haloSize := 0; _stepAlloc := 0;
     _eq_bundle_basename_default := basename |}.

(** ** Solutions, as the driver sees them

    A solution object lives in code outside the two files (the DSL classes
    and [StencilSolution]).  The driver changes it through [set_radius],
    [setSettings], [define] and [format] only, so an object is modelled by
    what its methods answer after a given history of those calls. *)

Inductive yask_output : Type :=
| stdout_output
| file_output (fname : string).

Inductive call : Type :=
| CallSetRadius (r : Z)
| CallSetSettings (s : CompilerSettings)
| CallDefine
| CallFormat (type : string) (os : yask_output).

(** The result of a method that may throw a [yask_exception]. *)
Inductive except (A : Type) : Type :=
| Returns (a : A)
| Raises (msg : string).
Arguments Returns {A} a.
Arguments Raises {A} msg.

(** [yc_solution]: the object behind [get_soln()]. *)
Record yc_solution : Type := {
  get_name : string;
  get_description : list call -> string;
  get_num_vars : list call -> Z;
  get_num_equations : list call -> Z;
  (** [format(type, os)]: the text rendered to [os], or an exception. *)
  format : list call -> string -> except string
}.

(** What [dynamic_cast<yc_solution_with_radius_base*>] gives access to. *)
Record yc_solution_with_radius_base : Type := {
  set_radius : list call -> Z -> bool;
  get_radius : list call -> Z
}.

Record yc_solution_base : Type := {
  _soln : yc_solution;
  as_radius_base : option yc_solution_with_radius_base;
  (** [define()]: [None] when it returns, the message when it throws. *)
  define : list call -> option string
}.

(** The functions of the other translation units that the driver calls. *)
Record Env : Type := {
  yask_get_version_string : string;
  (** [factory.new_solution(name)]; [None] is the null pointer. *)
  new_solution : string -> option yc_solution;
  (** [ArgParser::parseList] and [parseKeyValuePairs]: the items handed to
      the callback, in order, or an exception. *)
  parseList : string -> except (list string);
  parseKeyValuePairs : string -> except (list (string * string));
  (** [Tuple::addDimBack(key, size)]. *)
  addDimBack : string -> Z -> IntTuple -> IntTuple;
  (** [yask_output_factory::new_file_output]: [None] when the file is
      opened, the message when it throws. *)
  new_file_output : string -> option string
}.

(** ** The global variables and the process state *)

Record globals : Type := mkGlobals {
  (** namespace [yask] *)
  outfiles : gmap string string;
  settings : CompilerSettings;
  vlenForStats : Z;
  stencilSoln : option yc_solution_base;
  solutionName : string;
  radius : Z;
  stencils : gmap string yc_solution_base;
  (** what was written to [cout] and [cerr], one entry per statement *)
  cout : list string;
  cerr : list string;
  (** the files written, and the calls made so far on the selected solution *)
  files : gmap string string;
  soln_calls : list call
}.

Definition put_outfiles (v : gmap string string) (g : globals) : globals :=
  mkGlobals v (settings g) (vlenForStats g) (stencilSoln g) (solutionName g)
    (radius g) (stencils g) (cout g) (cerr g) (files g) (soln_calls g).
Definition put_settings (v : CompilerSettings) (g : globals) : globals :=
  mkGlobals (outfiles g) v (vlenForStats g) (stencilSoln g) (solutionName g)
    (radius g) (stencils g) (cout g) (cerr g) (files g) (soln_calls g).
Definition put_vlenForStats (v : Z) (g : globals) : globals :=
  mkGlobals (outfiles g) (settings g) v (stencilSoln g) (solutionName g)
    (radius g) (stencils g) (cout g) (cerr g) (files g) (soln_calls g).
Definition put_stencilSoln (v : option yc_solution_base) (g : globals) : globals :=
  mkGlobals (outfiles g) (settings g) (vlenForStats g) v (solutionName g)
    (radius g) (stencils g) (cout g) (cerr g) (files g) (soln_calls g).
Definition put_solutionName (v : string) (g : globals) : globals :=
  mkGlobals (outfiles g) (settings g) (vlenForStats g) (stencilSoln g) v
    (radius g) (stencils g) (cout g) (cerr g) (files g) (soln_calls g).
Definition put_radius (v : Z) (g : globals) : globals :=
  mkGlobals (outfiles g) (settings g) (vlenForStats g) (stencilSoln g)
    (solutionName g) v (stencils g) (cout g) (cerr g) (files g) (soln_calls
    g).
Definition put_stencils (v : gmap string yc_solution_base) (g : globals) : globals :=
  mkGlobals (outfiles g) (settings g) (vlenForStats g) (stencilSoln g)
    (solutionName g) (radius g) v (cout g) (cerr g) (files g) (soln_calls
    g).
Definition put_cout (v : list string) (g : globals) : globals :=
  mkGlobals (outfiles g) (settings g) (vlenForStats g) (stencilSoln g)
    (solutionName g) (radius g) (stencils g) v (cerr g) (files g)
    (soln_calls g).
Definition put_cerr (v : list string) (g : globals) : globals :=
  mkGlobals (outfiles g) (settings g) (vlenForStats g) (stencilSoln g)
    (solutionName g) (radius g) (stencils g) (cout g) v (files g)
    (soln_calls g).
Definition put_files (v : gmap string string) (g : globals) : globals :=
  mkGlobals (outfiles g) (settings g) (vlenForStats g) (stencilSoln g)
    (solutionName g) (radius g) (stencils g) (cout g) (cerr g) v (soln_calls
    g).
Definition put_soln_calls (v : list call) (g : globals) : globals :=
  mkGlobals (outfiles g) (settings g) (vlenForStats g) (stencilSoln g)
    (solutionName g) (radius g) (stencils g) (cout g) (cerr g) (files g) v.

(** ** The monad of the driver

    A computation runs from the globals to a result and the globals it
    leaves.  [Exited] is a call of [exit], [Thrown] a [yask_exception] on
    its way up, [Aborted] a failed [assert]; all three skip what follows. *)

Inductive res (A : Type) : Type :=
| Ret (a : A)
| Exited (code : Z)
| Thrown (msg : string)
| Aborted.
Arguments Ret {A} a.
Arguments Exited {A} code.
Arguments Thrown {A} msg.
Arguments Aborted {A}.

Definition M (A : Type) : Type := globals -> res A * globals.

#[global] Instance M_ret : MRet M := fun A a g => (Ret a, g).

#[global] Instance M_bind : MBind M := fun A B k m g =>
  match m g with
  | (Ret a, g') => k a g'
  | (Exited c, g') => (Exited c, g')
  | (Thrown msg, g') => (Thrown msg, g')
  | (Aborted, g') => (Aborted, g')
  end.

Definition get : M globals := fun g => (Ret g, g).
Definition modify (f : globals -> globals) : M unit := fun g => (Ret tt, f g).
Definition exit {A : Type} (code : Z) : M A := fun g => (Exited code, g).
Definition throw {A : Type} (msg : string) : M A := fun g => (Thrown msg, g).
Definition abort {A : Type} : M A := fun g => (Aborted, g).

(** One statement writing to [cout], and one writing to [cerr]. *)
Definition print_cout (s : string) : M unit :=
  modify (fun g => put_cout (cout g ++ [s]) g).
Definition print_cerr (s : string) : M unit :=
  modify (fun g => put_cerr (cerr g ++ [s]) g).

Definition modify_settings (f : CompilerSettings -> CompilerSettings) : M unit :=
  modify (fun g => put_settings (f (settings g)) g).

(** A call of one of the solution's changing methods. *)
Definition record_call (c : call) : M unit :=
  modify (fun g => put_soln_calls (soln_calls g ++ [c]) g).

(** [THROW_YASK_EXCEPTION(msg)]. *)
Definition THROW_YASK_EXCEPTION {A : Type} (msg : string) : M A := throw msg.

(** [for (auto i : m)] over a [std::map<string, V>]: by ascending key. *)
Definition key_le {V : Type} (a b : string * V) : Prop :=
  String.leb a.1 b.1 = true.

#[global] Instance key_le_dec {V : Type} (a b : string * V) :
  Decision (key_le a b).
Proof. unfold key_le. apply _. Defined.

Definition map_iter {V : Type} (m : gmap string V) : list (string * V) :=
  merge_sort key_le (map_to_list m).

Fixpoint for_each {A : Type} (body : A -> M unit) (l : list A) : M unit :=
  match l with
  | [] => mret tt
  | a :: l' => body a ;; for_each body l'
  end.

(** ** The registry and the constructor that fills it *)

(** [yc_solution_base::yc_solution_base(name)].  The object under
    construction is given by the parts that the derived class adds
    ([radius_part], [define_part]); its [_soln] comes from the factory. *)
Definition yc_solution_base_ctor (E : Env) (name : string)
    (radius_part : option yc_solution_with_radius_base)
    (define_part : list call -> option string) : M yc_solution_base :=
  g ← get;
  if bool_decide (is_Some (stencils g !! name)) then
    THROW_YASK_EXCEPTION ("Error: stencil '" +:+ name +:+ "' already defined")
  else
    match new_solution E name with
    | None => abort
    | Some soln =>
        let this := {| _soln := soln; as_radius_base := radius_part;
                       define := define_part |} in
        modify (fun g => put_stencils (<[name := this]> (stencils g)) g) ;;
        mret this
    end.

(** ** [usage] *)

Definition usage_head : string :=
  cat [
    ln "Options:";
    ln " -h";
    ln "     Print this help message.";
    nl;
    ln " -stencil <name>";
    ln "     Select stencil solution (required)"
  ].

Definition usage_tail (cmd : string) (s : CompilerSettings) : string :=
  cat [
    ln " -radius <radius>";
    ln "     Set radius for stencils marked with '*' above (default is stencil-specific).";
    nl;
    " -elem-bytes <n>    Set number of bytes in each FP element (default=";
    show_int (_elem_bytes s);
    ln ").";
    ln "      Currently, only 4 (single-precision) and 8 (double) are allowed.";
    ln " -domain-dims <dim>,<dim>,...";
    ln "    Explicitly name the domain dimensions and set their order.";
    ln "    In addition, domain dimensions are added when YASK variables are encountered";
    ln "      in the stencil DSL code.";
    ln "    Either way, the last unique domain dimension specified will become the 'inner' or";
    ln "      'unit-stride' dimension in memory layouts. Thus, this option can be used to override";
    ln "      the default layout order.";
    ln "    The domain-dimension order also affects loop nesting and default rank layout.";
    ln " -step-dim <dim>";
    ln "    Explicitly set the step dimension.";
    ln "    By default, the step dimension is defined when YASK variables are encountered";
    ln "      in the stencil DSL code.";
    ln " -fold <dim>=<size>,...";
    ln "    Set number of elements in each given dimension in a vector block.";
    ln "    Default depends on -elem-bytes setting, domain-dimension order, and print format (below).";
    ln "    If product of fold lengths does not equal SIMD vector length for print";
    ln "      formats with explicit lengths, lengths will adjusted as needed.";
    ln " -cluster <dim>=<size>,...";
    ln "    Set number of vectors to evaluate in each dimension.";
    ln " -vars <regex>";
    ln "    Only process updates to vars whose names match <regex>.";
    ln "      This can be used to generate code for a subset of the stencil equations.";
    ln " -eq-bundles <name>=<regex>,...";
    ln "    Put updates to vars matching <regex> in equation-bundle with base-name <name>.";
    ln "      By default, eq-bundles are created as needed based on dependencies between equations:";
    ln "        equations that do not depend on each other are bundled together into bundles with the";
    "        base-name '";
    _eq_bundle_basename_default s;
    ln "'.";
    ln "      Each eq-bundle base-name is appended with a unique index number, so the default bundle";
    "        names are '";
    _eq_bundle_basename_default s;
    "_0', ";
    _eq_bundle_basename_default s;
    ln "_1', etc.";
    ln "      This option allows more control over this bundling.";
    "      Example: ";
    dquote;
    "-eq-bundles a=foo,b=b[aeiou]r";
    dquote;
    ln " creates one or more eq-bundles named 'a_0', 'a_1', etc.";
    ln "        containing updates to each var whose name contains 'foo' and one or more eq-bundles";
    ln "        named 'b_0', 'b_1', etc. containing updates to each var whose name matches 'b[aeiou]r'.";
    ln "      Standard regex-format tokens in <name> will be replaced based on matches to <regex>.";
    "      Example: ";
    dquote;
    "-eq-bundles 'g_$&=b[aeiou]r'";
    dquote;
    ln " with vars 'bar_x', 'bar_y', 'ber_x', and 'ber_y'";
    ln "        would create eq-bundle 'g_bar_0' for vars 'bar_x' and 'bar_y' and eq-bundle 'g_ber_0' for";
    ln "        vars 'ber_x' and 'ber_y' because '$&' is substituted by the string that matches the regex.";
    ln " [-no]-bundle-scratch";
    ln "    Bundle scratch equations even if the sizes of their scratch vars must be increased";
    "      to do so (default=";
    show_bool (_bundleScratch s);
    ln ").";
    ln " -halo <size>";
    ln "    Specify the size of the halos on all vars.";
    ln "      By default, halos are calculated automatically for each var.";
    ln " -step-alloc <size>";
    ln "    Specify the size of the step-dimension memory allocation on all vars.";
    ln "      By default, allocations are calculated automatically for each var.";
    ln " [-no]-interleave-misc";
    "    Allocate YASK vars with the 'misc' dims as the inner-most dims (default=";
    show_bool (_innerMisc s);
    ln ").";
    ln "      This disallows dynamcally changing the 'misc' dim sizes during run-time.";
    ln " -fus";
    "    Make first dimension of fold unit stride (default=";
    show_bool (_firstInner s);
    ln ").";
    ln "      This controls the intra-vector memory layout.";
    ln " -lus";
    "    Make last dimension of fold unit stride (default=";
    show_bool (negb (_firstInner s));
    ln ").";
    ln "      This controls the intra-vector memory layout.";
    ln " [-no]-ul";
    "    Do [not] generate simple unaligned loads (default=";
    show_bool (_allowUnalignedLoads s);
    ln ").";
    ln "      [Advanced] To use this correctly, only 1D folds are allowed, and";
    ln "        the memory layout used by YASK must have that same dimension in unit stride.";
    ln " [-no]-opt-comb";
    "    Do [not] combine commutative operations (default=";
    show_bool (_doComb s);
    ln ").";
    ln " [-no]-opt-cse";
    "    Do [not] eliminate common subexpressions (default=";
    show_bool (_doCse s);
    ln ").";
    ln " [-no]-opt-pair";
    "    Do [not] pair eligible function calls (default=";
    show_bool (_doPairs s);
    ln ").";
    ln "      Currently enables 'sin(x)' and 'cos(x)' to be replaced with 'sincos(x)'.";
    ln " [-no]-opt-cluster";
    "    Do [not] apply optimizations across the cluster (default=";
    show_bool (_doOptCluster s);
    ln ").";
    ln " -max-es <num-nodes>";
    "    Set heuristic for max single expression-size (default=";
    show_int (_maxExprSize s);
    ln ").";
    ln " -min-es <num-nodes>";
    "    Set heuristic for min expression-size for reuse (default=";
    show_int (_minExprSize s);
    ln ").";
    ln " [-no]-find-deps";
    "    Find dependencies between stencil equations (default=";
    show_bool (_findDeps s);
    ln ").";
    ln " [-no]-print-eqs";
    "    Print each equation when defined (default=";
    show_bool (_printEqs s);
    ln ").";
    nl;
    ln " -p <format-type> <filename>";
    ln "    Format output per <format-type> and write to <filename>.";
    ln "    Supported format-types:";
    ln "      cpp         YASK stencil classes for generic C++ (no explicit HW SIMD vectors).";
    ln "      avx         YASK stencil classes for CORE AVX ISA (256-bit HW SIMD vectors).";
    ln "      avx2        YASK stencil classes for CORE AVX2 ISA (256-bit HW SIMD vectors).";
    ln "      avx512      YASK stencil classes for CORE AVX-512 & MIC AVX-512 ISAs (512-bit HW SIMD vectors).";
    ln "      knc         YASK stencil classes for KNC ISA (512-bit HW SIMD vectors).";
    ln "      pseudo      Human-readable scalar pseudo-code.";
    ln "      pseudo-long Human-readable scalar pseudo-code with intermediate variables.";
    ln "      dot         DOT-language description.";
    ln "      dot-lite    DOT-language description of var accesses only.";
    nl;
    ln "Examples:";
    " ";
    cmd;
    ln " -stencil 3axis -radius 2 -fold x=4,y=4 -p pseudo -  # '-' for stdout";
    " ";
    cmd;
    ln " -stencil awp -elem-bytes 8 -fold x=4,y=2 -p avx2 stencil_code.hpp";
    " ";
    cmd;
    ln " -stencil iso3dfd -radius 4 -cluster y=2 -p avx512 stencil_code.hpp"
  ].


(** One pass of the loop over [stencils]: the names whose having the prefix
    [test_] agrees with [show_test], marked when they have a radius. *)
Definition usage_stencil_line (show_test : bool)
    (si : string * yc_solution_base) : string :=
  let name := si.1 in
  if Bool.eqb (starts_with "test_" name) show_test then
    cat [ "           "; name;
          match as_radius_base si.2 with
          | Some _ => " *"
          | None => EmptyString
          end;
          nl ]
  else EmptyString.

Definition usage_stencils (reg : gmap string yc_solution_base) : string :=
  cat (map (fun show_test : bool =>
         cat [ if show_test then ln "       Built-in test solutions:"
               else ln "       Built-in example solutions:";
               cat (map (usage_stencil_line show_test) (map_iter reg)) ])
       [false; true]).

(** Everything [usage] writes to [cout]. *)
Definition usage_text (cmd : string) (g : globals) : string :=
  cat [ usage_head; usage_stencils (stencils g);
        usage_tail cmd (settings g) ].

(** [usage(cmd)]: the help on [cout], then [exit(1)]. *)
Definition usage {A : Type} (cmd : string) : M A :=
  g ← get;
  print_cout (usage_text cmd g) ;;
  exit 1.

(** ** [parseOpts] *)

Definition is_help (opt : string) : bool :=
  String.eqb opt "-h" || String.eqb opt "-help" || String.eqb opt "--help".

(** The options without a value, and what each does to [settings]. *)
Definition flag_option (opt : string)
    : option (CompilerSettings -> CompilerSettings) :=
  if String.eqb opt "-fus" then Some (set_firstInner true)
  else if String.eqb opt "-lus" then Some (set_firstInner false)
  else if String.eqb opt "-ul" then Some (set_allowUnalignedLoads true)
  else if String.eqb opt "-no-ul" then Some (set_allowUnalignedLoads false)
  else if String.eqb opt "-opt-comb" then Some (set_doComb true)
  else if String.eqb opt "-no-opt-comb" then Some (set_doComb false)
  else if String.eqb opt "-opt-cse" then Some (set_doCse true)
  else if String.eqb opt "-no-opt-cse" then Some (set_doCse false)
  else if String.eqb opt "-opt-pair" then Some (set_doPairs true)
  else if String.eqb opt "-no-opt-pair" then Some (set_doPairs false)
  else if String.eqb opt "-opt-cluster" then Some (set_doOptCluster true)
  else if String.eqb opt "-no-opt-cluster" then Some (set_doOptCluster false)
  else if String.eqb opt "-find-deps" then Some (set_findDeps true)
  else if String.eqb opt "-no-find-deps" then Some (set_findDeps false)
  else if String.eqb opt "-bundle-scratch" then Some (set_bundleScratch true)
  else if String.eqb opt "-no-bundle-scratch" then Some (set_bundleScratch false)
  else if String.eqb opt "-print-eqs" then Some (set_printEqs true)
  else if String.eqb opt "-no-print-eqs" then Some (set_printEqs false)
  else if String.eqb opt "-interleave-misc" then Some (set_innerMisc true)
  else if String.eqb opt "-no-interleave-misc" then Some (set_innerMisc false)
  else None.

(** A method of the argument parser that may throw. *)
Definition call_parser {A : Type} (r : except A) : M A :=
  match r with
  | Returns a => mret a
  | Raises msg => throw msg
  end.

(** The options with a string value [argop], [-p] apart. *)
Definition string_option (E : Env) (opt argop : string) : option (M unit) :=
  if String.eqb opt "-stencil" then
    Some (modify (put_solutionName argop))
  else if String.eqb opt "-vars" then
    Some (modify_settings (set_varRegex argop))
  else if String.eqb opt "-eq-bundles" then
    Some (modify_settings (set_eqBundleTargets argop))
  else if String.eqb opt "-step-dim" then
    Some (modify_settings (set_stepDim argop))
  else if String.eqb opt "-domain-dims" then
    Some (modify_settings (set_domainDims []) ;;
          dnames ← call_parser (parseList E argop);
          for_each (fun dname =>
            modify_settings (fun s =>
              set_domainDims (_domainDims s ++ [dname]) s)) dnames)
  else if String.eqb opt "-fold" || String.eqb opt "-cluster" then
    Some (pairs ← call_parser (parseKeyValuePairs E argop);
          for_each (fun kv : string * string =>
            let size := atoi kv.2 in
            if String.eqb opt "-fold" then
              modify_settings (fun s =>
                set_foldOptions (addDimBack E kv.1 size (_foldOptions s)) s)
            else
              modify_settings (fun s =>
                set_clusterOptions
                  (addDimBack E kv.1 size (_clusterOptions s)) s)) pairs)
  else None.

(** The options with an integer value [val]. *)
Definition int_option (opt : string) (val : Z) : option (globals -> globals) :=
  if String.eqb opt "-max-es" then
    Some (fun g => put_settings (set_maxExprSize val (settings g)) g)
  else if String.eqb opt "-min-es" then
    Some (fun g => put_settings (set_minExprSize val (settings g)) g)
  else if String.eqb opt "-radius" then Some (put_radius val)
  else if String.eqb opt "-elem-bytes" then
    Some (fun g => put_settings (set_elem_bytes val (settings g)) g)
  else if String.eqb opt "-ps" then Some (put_vlenForStats val)
  else if String.eqb opt "-halo" then
    Some (fun g => put_settings (set_haloSize val (settings g)) g)
  else if String.eqb opt "-step-alloc" then
    Some (fun g => put_settings (set_stepAlloc val (settings g)) g)
  else None.

(** The loop over [argv[1..]].  It returns the arguments left when it stops:
    none, or those from the first one that is not an option. *)
Fixpoint parse_loop (E : Env) (cmd : string) (args : list string)
    {struct args} : M (list string) :=
  match args with
  | [] => mret []
  | opt :: rest =>
      if is_option opt then
        if is_help opt then usage cmd
        else
          match flag_option opt with
          | Some f => modify_settings f ;; parse_loop E cmd rest
          | None =>
              match rest with
              | [] =>
                  print_cerr (cat [ "Error: value missing or bad option '";
                                    opt; ln "'." ]) ;;
                  usage cmd
              | argop :: rest =>
                  match string_option E opt argop with
                  | Some act => act ;; parse_loop E cmd rest
                  | None =>
                      if String.eqb opt "-p" then
                        match rest with
                        | [] =>
                            print_cerr
                              (cat [ "Error: filename missing after '"; opt;
                                     " "; argop; ln "'." ]) ;;
                            usage cmd
                        | argop2 :: rest =>
                            modify (fun g =>
                              put_outfiles (<[argop := argop2]> (outfiles g)) g) ;;
                            parse_loop E cmd rest
                        end
                      else
                        match int_option opt (atoi argop) with
                        | Some f => modify f ;; parse_loop E cmd rest
                        | None =>
                            print_cerr (cat [ "Error: option '"; opt;
                                              ln "' not recognized." ]) ;;
                            usage cmd
                        end
                  end
              end
          end
      else mret args
  end.

(** What follows the loop once a solution is selected: the radius, the
    settings and [define()]. *)
Definition set_radius_if_applicable (cmd : string) (sp : yc_solution_base)
    : M unit :=
  match as_radius_base sp with
  | Some srp =>
      g ← get;
      (if 0 <=? radius g then
         record_call (CallSetRadius (radius g)) ;;
         if set_radius srp (soln_calls g) (radius g) then mret tt
         else
           print_cerr (cat [ "Error: invalid radius="; show_int (radius g);
                             " for stencil type '"; solutionName g;
                             ln "'." ]) ;;
           usage cmd
       else mret tt) ;;
      g' ← get;
      print_cout (cat [ "Stencil radius: ";
                        ln (show_int (get_radius srp (soln_calls g'))) ])
  | None => mret tt
  end.

Definition call_define (sp : yc_solution_base) : M unit :=
  g ← get;
  record_call CallDefine ;;
  match define sp (soln_calls g) with
  | Some msg => throw msg
  | None => mret tt
  end.

Definition setup_solution (cmd : string) (sp : yc_solution_base) : M unit :=
  modify (put_stencilSoln (Some sp)) ;;
  let soln := _soln sp in
  print_cout (cat [ "Stencil-solution name: "; ln (get_name soln) ]) ;;
  set_radius_if_applicable cmd sp ;;
  g ← get;
  print_cout (cat [ "Stencil-solution description: ";
                    ln (get_description soln (soln_calls g)) ]) ;;
  record_call (CallSetSettings (settings g)) ;;
  call_define sp ;;
  g' ← get;
  print_cout (cat [ "Num vars defined: ";
                    ln (show_int (get_num_vars soln (soln_calls g'))) ]) ;;
  print_cout (cat [ "Num equations defined: ";
                    ln (show_int (get_num_equations soln (soln_calls g'))) ]).

(** [parseOpts(argc, argv)] with [argv = cmd :: args]. *)
Definition parseOpts (E : Env) (cmd : string) (args : list string) : M unit :=
  (match args with
   | [] => usage cmd
   | _ => mret tt
   end) ;;
  left ← parse_loop E cmd args;
  (match left with
   | a :: _ =>
       print_cerr (cat [ "Error: unrecognized parameter '"; a; ln "'." ]) ;;
       usage cmd
   | [] => mret tt
   end) ;;
  g ← get;
  (if (String.length (solutionName g) =? 0)%nat then
     print_cerr (ln "Error: solution not specified.") ;;
     usage cmd
   else mret tt) ;;
  match stencils g !! solutionName g with
  | None =>
      print_cerr (cat [ "Error: unknown stencil solution '"; solutionName g;
                        ln "'." ]) ;;
      usage cmd
  | Some sp => setup_solution cmd sp
  end.

(** ** [main] *)

(** The body of the loop over [outfiles]: open the sink, render into it. *)
Definition write_output (os : yask_output) (text : string) : M unit :=
  match os with
  | stdout_output => print_cout text
  | file_output fname =>
      modify (fun g => put_files (<[fname := text]> (files g)) g)
  end.

Definition emit_one (E : Env) (i : string * string) : M unit :=
  let type := i.1 in
  let fname := i.2 in
  os ← (if String.eqb fname "-" then mret stdout_output
        else match new_file_output E fname with
             | Some msg => throw msg
             | None => mret (file_output fname)
             end);
  g ← get;
  match stencilSoln g with
  | None => abort
  | Some sp =>
      record_call (CallFormat type os) ;;
      match format (_soln sp) (soln_calls g) type with
      | Returns text => write_output os text
      | Raises msg => throw msg
      end
  end.

(** What follows [parseOpts] in the [try] block: the hint when nothing is
    asked for, then the loop over [outfiles]. *)
Definition emit_outputs (E : Env) : M unit :=
  g ← get;
  (if bool_decide (size (outfiles g) = 0%nat) then
     print_cout (ln "Use the '-p' option to generate output from this stencil.")
   else mret tt) ;;
  for_each (emit_one E) (map_iter (outfiles g)).

(** The body of the [try] block. *)
Definition main_body (E : Env) (cmd : string) (args : list string) : M unit :=
  parseOpts E cmd args ;;
  emit_outputs E.

Definition banner (E : Env) : string :=
  cat [ ln "YASK -- Yet Another Stencil Kernel";
        ln "YASK Stencil Compiler Utility";
        ln "Copyright (c) 2014-2019, Intel Corporation.";
        "Version: "; ln (yask_get_version_string E) ].

(** How the process ends. *)
Inductive termination : Type :=
| ExitStatus (code : Z)
| AbortSignal.

(** [main(argc, argv)]: how the process ends and the globals it leaves. *)
Definition main (E : Env) (cmd : string) (args : list string) (g : globals)
    : termination * globals :=
  match (print_cout (banner E) ;; main_body E cmd args) g with
  | (Ret _, g') =>
      (ExitStatus 0, put_cout (cout g' ++ [ln "YASK Stencil Compiler: done."]) g')
  | (Exited c, g') => (ExitStatus c, g')
  | (Thrown msg, g') =>
      (ExitStatus 1,
       put_cerr (cerr g' ++ [cat [ "YASK Stencil Compiler: "; msg; ln "." ]]) g')
  | (Aborted, g') => (AbortSignal, g')
  end.

(** The globals when [main] starts: the registry as the constructors left
    it, the other variables as initialised at their definitions, nothing
    written. *)
Definition initial_globals (s : CompilerSettings)
    (reg : gmap string yc_solution_base) : globals :=
  {| outfiles := ∅; settings := s; vlenForStats := 0; stencilSoln := None;
     solutionName := EmptyString; radius := -1; stencils := reg;
     cout := []; cerr := []; files := ∅; soln_calls := [] |}.

(** * [stencil_calc.hpp] *)

(** ** [StencilContext::compare] *)

Section StencilContext.

(** [RealvGridBase] is declared elsewhere: a grid is known here by its
    name and by the number of mis-compares that its own [compare] counts
    against another grid. *)
Variable RealvGridBase : Type.
Variable grid_get_name : RealvGridBase -> string.
Variable grid_compare : RealvGridBase -> RealvGridBase -> Z.

(** The members of [StencilContext] that [compare] reads. *)
Record StencilContext : Type := {
  name : string;
  gridPtrs : list RealvGridBase
}.

(** The loop of [compare] from index [gi] on, [rest] being the grids of
    the calling context from there.  It carries [errs] and what was
    written to [cerr].  [gridPtrs ref !! gi] is [None] exactly when
    [gi >= ref.gridPtrs.size()].  [idx_t] is taken as [Z]: the count stays
    far below 2^63. *)
Fixpoint compare_loop (ref : StencilContext) (gi : nat)
    (rest : list RealvGridBase) (errs : Z) (err : list string)
    : Z * list string :=
  match rest with
  | [] => (errs, err)
  | gp :: rest' =>
      match gridPtrs ref !! gi with
      | None =>
          compare_loop ref (S gi) rest' (errs + 1)
            (err ++ [cat [ "** grid '"; grid_get_name gp;
                           "' not in stencil '"; ln (name ref) ]])
      | Some rp =>
          compare_loop ref (S gi) rest' (errs + grid_compare gp rp) err
      end
  end.

(** [this->compare(ref)]: the number of mis-compares and the lines
    written to [cerr]. *)
Definition compare (this ref : StencilContext) : Z * list string :=
  compare_loop ref 0 (gridPtrs this) 0 [].

(** The sum of a list of counts. *)
Definition sum_counts (l : list Z) : Z := foldr Z.add 0 l.

End StencilContext.

Arguments name {RealvGridBase} _.
Arguments gridPtrs {RealvGridBase} _.

(** ** [StencilTemplate::calc_cluster] and [calc_block] *)

Section StencilTemplate.

(** The cluster and vector lengths are macros of a generated header, and
    [idiv] is a helper of another file. *)
Variables CLEN_N CLEN_X CLEN_Y CLEN_Z : Z.
Variables VLEN_N VLEN_X VLEN_Y VLEN_Z : Z.
Variable idiv : Z -> Z -> Z.
(** Whether [USING_DIM_N] is set, which decides what [ARG_N] passes on. *)
Variable USING_DIM_N : bool.










End StencilTemplate.

(** ** [StencilContext::get_num_bytes] *)

Section StencilContextBytes.
Variable RealvGridBase : Type.
(** [gp->get_num_bytes()], of the grid class. *)
Variable grid_get_num_bytes : RealvGridBase -> Z.


End StencilContextBytes.

(** * Vocabulary of the statements *)

(** The renderings asked of the solution, in order: one per artifact. *)
Definition format_calls (h : list call) : list (string * yask_output) :=
  omap (fun c => match c with
                 | CallFormat type os => Some (type, os)
                 | _ => None
                 end) h.




(** The lines that [parseOpts] writes to [cerr]. *)
Inductive driver_error : string -> Prop :=
| err_value_missing opt :
    driver_error (cat [ "Error: value missing or bad option '"; opt; ln "'." ])
| err_filename_missing opt argop :
    driver_error (cat [ "Error: filename missing after '"; opt; " "; argop;
                        ln "'." ])
| err_not_recognized opt :
    driver_error (cat [ "Error: option '"; opt; ln "' not recognized." ])
| err_unrecognized_parameter a :
    driver_error (cat [ "Error: unrecognized parameter '"; a; ln "'." ])
| err_not_specified :
    driver_error (ln "Error: solution not specified.")
| err_unknown_stencil sname :
    driver_error (cat [ "Error: unknown stencil solution '"; sname; ln "'." ])
| err_invalid_radius r sname :
    driver_error (cat [ "Error: invalid radius="; show_int r;
                        " for stencil type '"; sname; ln "'." ]).

(** The line that the handler of [main] writes for an exception. *)
Definition exception_line (msg : string) : string :=
  cat [ "YASK Stencil Compiler: "; msg; ln "." ].

(** [m] run from any globals ends as [post] says. *)
Definition satisfies {A : Type} (m : M A)
    (post : globals -> res A -> globals -> Prop) : Prop :=
  forall g, post g (m g).1 (m g).2.

(** What holds of every step of [parseOpts]: the registry, the files and
    the renderings are untouched and [cout] only grows; a step that returns
    or throws leaves [cerr] alone; a step that exits does so with code 1,
    the help being the last thing on [cout] and at most one line, one of
    [driver_error], being added to [cerr]; no assertion fails. *)
Definition setup_post (cmd : string) {A : Type} (g : globals) (r : res A)
    (g' : globals) : Prop :=
  stencils g' = stencils g /\ files g' = files g /\
  format_calls (soln_calls g') = format_calls (soln_calls g) /\
  match r with
  | Ret _ | Thrown _ =>
      cerr g' = cerr g /\ exists mid, cout g' = cout g ++ mid
  | Exited c =>
      c = 1 /\
      (exists mid, cout g' = cout g ++ mid ++ [usage_text cmd g']) /\
      (cerr g' = cerr g \/
       exists l, driver_error l /\ cerr g' = cerr g ++ [l])
  | Aborted => False
  end.

(** What holds of every step of the loop over [outfiles] once a solution
    is selected: it returns or throws, and leaves the registry, the
    selection and [cerr] alone. *)
Definition emit_post {A : Type} (g : globals) (r : res A) (g' : globals)
    : Prop :=
  is_Some (stencilSoln g) ->
  stencils g' = stencils g /\ stencilSoln g' = stencilSoln g /\
  cerr g' = cerr g /\ (exists mid, cout g' = cout g ++ mid) /\
  match r with
  | Ret _ | Thrown _ => True
  | Exited _ | Aborted => False
  end.

(** [name] follows a [-stencil] somewhere in [args]. *)
Definition stencil_named (args : list string) (name : string) : Prop :=
  exists pre post, args = pre ++ "-stencil" :: name :: post.

(** The arguments that follow a [-stencil], in order. *)
Fixpoint stencil_values (args : list string) : list string :=
  match args with
  | [] => []
  | a :: rest =>
      (if String.eqb a "-stencil" then
         match rest with
         | v :: _ => [v]
         | [] => []
         end
       else []) ++ stencil_values rest
  end.

(** No argument that follows a [-stencil] is a key of the registry; in
    particular, there may be no [-stencil] at all. *)
Definition no_registered_stencil (reg : gmap string yc_solution_base)
    (args : list string) : Prop :=
  Forall (fun v => reg !! v = None) (stencil_values args).

Section CompareVocabulary.
Context {RealvGridBase : Type}.
Variable grid_compare : RealvGridBase -> RealvGridBase -> Z.

(** What the grid [gp] at index [gi] of the calling context adds to the
    count: its own mis-compares with the grid of the reference at that
    index, or 1 when the reference has no such index. *)
Definition grid_count (ref : StencilContext RealvGridBase) (gi : nat)
    (gp : RealvGridBase) : Z :=
  match gridPtrs ref !! gi with
  | Some rp => grid_compare gp rp
  | None => 1
  end.
End CompareVocabulary.

(** The globals once [main] has written its banner. *)
Definition started (E : Env) (g : globals) : globals :=
  put_cout (cout g ++ [banner E]) g.


(** The line of [parseOpts] when the name that the loop leaves is empty or
    is not a key of the registry. *)
Definition unselected_line (g1 : globals) : string :=
  if (String.length (solutionName g1) =? 0)%nat then
    ln "Error: solution not specified."
  else cat [ "Error: unknown stencil solution '"; solutionName g1; ln "'." ].

(** ** A sample registry

    Three solutions, one of them with a radius, and an environment in which
    every helper succeeds; the closed examples below run on them. *)

Definition sample_soln (sname : string) : yc_solution :=
  {| get_name := sname;
     get_description := fun _ => "sample";
     get_num_vars := fun _ => 2;
     get_num_equations := fun _ => 1;
     format := fun _ type =>
       if String.eqb type "cpp" then Returns "// cpp"
       else if String.eqb type "pseudo" then Returns "// pseudo"
       else Raises (cat [ "Error: format-type '"; type;
                          "' is not recognized" ]) |}.

(** A radius is accepted from 1 on; the radius in effect is the last one
    passed, 2 before any. *)
Definition sample_radius : yc_solution_with_radius_base :=
  {| set_radius := fun _ r => 1 <=? r;
     get_radius := fun h =>
       fold_left (fun acc c => match c with
                               | CallSetRadius r => r
                               | _ => acc
                               end) h 2 |}.

Definition sample_solution (sname : string) (with_radius : bool)
    : yc_solution_base :=
  {| _soln := sample_soln sname;
     as_radius_base := if with_radius then Some sample_radius else None;
     define := fun _ => None |}.

Definition sample_env : Env :=
  {| yask_get_version_string := "2.15.00";
     new_solution := fun sname => Some (sample_soln sname);
     parseList := fun s => Returns [s];
     parseKeyValuePairs := fun s => Returns [(s, "1")];
     addDimBack := fun key size t => t ++ [(key, size)];
     new_file_output := fun _ => None |}.

Definition sample_registry : gmap string yc_solution_base :=
  <["iso3dfd" := sample_solution "iso3dfd" true]>
    (<["awp" := sample_solution "awp" false]>
       (<["test_1d" := sample_solution "test_1d" false]> ∅)).

Definition sample_globals : globals :=
  initial_globals (default_settings "stencil_bundle") sample_registry.


(** The line of [parseOpts] for an argument that is no option. *)
Definition unrecognized_parameter_line (a : string) : string :=
  cat [ "Error: unrecognized parameter '"; a; ln "'." ].

(** The last line of a run that succeeds, and the hint of a run that is
    asked for no output. *)
Definition done_line : string := ln "YASK Stencil Compiler: done.".
Definition no_output_hint : string :=
  ln "Use the '-p' option to generate output from this stencil.".

(** A sample comparison of grids given by their contents: 0 when equal,
    1 when not. *)
Definition sample_grid_compare (a b : list Z) : Z :=
  if bool_decide (a = b) then 0 else 1.



(** * Properties of the driver *)

(** ** Running the monad *)

Lemma bind_run {A B : Type} (m : M A) (k : A -> M B) (g : globals) :
  (m ≫= k) g =
  match m g with
  | (Ret a, g') => k a g'
  | (Exited c, g') => (Exited c, g')
  | (Thrown msg, g') => (Thrown msg, g')
  | (Aborted, g') => (Aborted, g')
  end.
Proof. reflexivity. Qed.

Lemma bind_Ret {A B : Type} (m : M A) (k : A -> M B) g a g' :
  m g = (Ret a, g') -> (m ≫= k) g = k a g'.
Proof. intros H. rewrite bind_run, H. reflexivity. Qed.

Lemma bind_Ret_inv {A B : Type} (m : M A) (k : A -> M B) g b g' :
  (m ≫= k) g = (Ret b, g') ->
  exists a g1, m g = (Ret a, g1) /\ k a g1 = (Ret b, g').
Proof.
  rewrite bind_run. destruct (m g) as [[a|c|msg|] g1]; try discriminate.
  intros H. exists a, g1. split; [reflexivity | exact H].
Qed.

Lemma usage_run {A : Type} (cmd : string) (g : globals) :
  usage (A:=A) cmd g = (Exited 1, put_cout (cout g ++ [usage_text cmd g]) g).
Proof. reflexivity. Qed.

Lemma error_usage_run {A : Type} (cmd l : string) (g : globals) :
  (print_cerr l ;; usage (A:=A) cmd) g =
  (Exited 1,
   put_cout (cout g ++ [usage_text cmd g]) (put_cerr (cerr g ++ [l]) g)).
Proof. reflexivity. Qed.

Lemma format_calls_app (h1 h2 : list call) :
  format_calls (h1 ++ h2) = format_calls h1 ++ format_calls h2.
Proof. unfold format_calls. apply omap_app. Qed.

Lemma format_calls_snoc_other (h : list call) (c : call) :
  (forall type os, c <> CallFormat type os) ->
  format_calls (h ++ [c]) = format_calls h.
Proof.
  intros Hc. rewrite format_calls_app.
  destruct c; try apply app_nil_r. exfalso. eapply Hc. reflexivity.
Qed.

Lemma format_calls_snoc_format (h : list call) type os :
  format_calls (h ++ [CallFormat type os]) = format_calls h ++ [(type, os)].
Proof. rewrite format_calls_app. reflexivity. Qed.

#[global] Arguments format_calls : simpl never.

(** ** The rules of [setup_post] *)

Section SetupRules.
Variable cmd : string.

Lemma setup_bind {A B : Type} (m : M A) (k : A -> M B) :
  satisfies m (setup_post cmd) ->
  (forall a, satisfies (k a) (setup_post cmd)) ->
  satisfies (m ≫= k) (setup_post cmd).
Proof.
  intros Hm Hk g. specialize (Hm g). rewrite bind_run.
  destruct (m g) as [[a|c|msg|] g1]; simpl in *; try exact Hm.
  destruct Hm as (Hs & Hf & Hc & He & mid & Ho).
  specialize (Hk a g1). destruct (k a g1) as [r g2]; simpl in *.
  destruct Hk as (Hs' & Hf' & Hc' & Hr).
  repeat split; try congruence.
  destruct r as [b|c|msg|]; try exact Hr.
  - destruct Hr as (He' & mid' & Ho'). split; [congruence|].
    exists (mid ++ mid'). rewrite Ho', Ho, <- app_assoc. reflexivity.
  - destruct Hr as (-> & (mid' & Ho') & He'). split; [reflexivity|]. split.
    + exists (mid ++ mid'). rewrite Ho', Ho, <- !app_assoc. reflexivity.
    + rewrite <- He. exact He'.
  - destruct Hr as (He' & mid' & Ho'). split; [congruence|].
    exists (mid ++ mid'). rewrite Ho', Ho, <- app_assoc. reflexivity.
Qed.

Lemma setup_mret {A : Type} (a : A) : satisfies (mret a) (setup_post cmd).
Proof.
  intros g. repeat split. exists []. simpl. rewrite app_nil_r. reflexivity.
Qed.

Lemma setup_get : satisfies get (setup_post cmd).
Proof.
  intros g. repeat split. exists []. simpl. rewrite app_nil_r. reflexivity.
Qed.

Lemma setup_throw {A : Type} (msg : string) :
  satisfies (throw (A:=A) msg) (setup_post cmd).
Proof.
  intros g. repeat split. exists []. simpl. rewrite app_nil_r. reflexivity.
Qed.

Lemma setup_usage {A : Type} : satisfies (usage (A:=A) cmd) (setup_post cmd).
Proof.
  intros g. rewrite usage_run. simpl. repeat split.
  - exists []. reflexivity.
  - left. reflexivity.
Qed.

Lemma setup_error {A : Type} (l : string) :
  driver_error l ->
  satisfies (print_cerr l ;; usage (A:=A) cmd) (setup_post cmd).
Proof.
  intros Hl g. rewrite error_usage_run. simpl. repeat split.
  - exists []. reflexivity.
  - right. exists l. split; [exact Hl | reflexivity].
Qed.

Lemma setup_print_cout (s : string) :
  satisfies (print_cout s) (setup_post cmd).
Proof. intros g. simpl. repeat split. exists [s]. reflexivity. Qed.

(** An assignment to one of the option variables. *)
Lemma setup_modify (f : globals -> globals) :
  (forall g, stencils (f g) = stencils g /\ files (f g) = files g /\
             soln_calls (f g) = soln_calls g /\ cerr (f g) = cerr g /\
             cout (f g) = cout g) ->
  satisfies (modify f) (setup_post cmd).
Proof.
  intros Hf g. destruct (Hf g) as (H1 & H2 & H3 & H4 & H5). simpl.
  repeat split; try congruence. exists []. rewrite app_nil_r. exact H5.
Qed.

Lemma setup_modify_settings (f : CompilerSettings -> CompilerSettings) :
  satisfies (modify_settings f) (setup_post cmd).
Proof. apply setup_modify. intros g. repeat split. Qed.

Lemma setup_record_call (c : call) :
  (forall type os, c <> CallFormat type os) ->
  satisfies (record_call c) (setup_post cmd).
Proof.
  intros Hc g. simpl. repeat split.
  - apply format_calls_snoc_other, Hc.
  - exists []. rewrite app_nil_r. reflexivity.
Qed.

Lemma setup_call_parser {A : Type} (r : except A) :
  satisfies (call_parser r) (setup_post cmd).
Proof. destruct r; [apply setup_mret | apply setup_throw]. Qed.

Lemma setup_for_each {A : Type} (body : A -> M unit) (l : list A) :
  (forall a, satisfies (body a) (setup_post cmd)) ->
  satisfies (for_each body l) (setup_post cmd).
Proof.
  intros Hb. induction l as [|a l IH]; simpl.
  - apply setup_mret.
  - apply setup_bind; [apply Hb | intros _; exact IH].
Qed.

End SetupRules.

Create HintDb setup.
#[local] Hint Constructors driver_error : setup.

(** Steps through a computation with the rules above. *)
Ltac setup_step :=
  lazymatch goal with
  | |- satisfies (print_cerr _ ≫= fun _ => usage _) _ =>
      apply setup_error; solve [auto with setup]
  | |- satisfies (_ ≫= _) _ => apply setup_bind; [| intros ?]
  | |- satisfies (for_each _ _) _ => apply setup_for_each; intros ?
  | |- satisfies (record_call _) _ => apply setup_record_call; discriminate
  | |- satisfies (modify_settings _) _ => apply setup_modify_settings
  | |- satisfies (modify _) _ =>
      apply setup_modify; intros ?; repeat split
  | |- satisfies (mret _) _ => apply setup_mret
  | |- satisfies get _ => apply setup_get
  | |- satisfies (throw _) _ => apply setup_throw
  | |- satisfies (usage _) _ => apply setup_usage
  | |- satisfies (print_cout _) _ => apply setup_print_cout
  | |- satisfies (call_parser _) _ => apply setup_call_parser
  end.

(** ** The cases of the option loop

    One case per path through the body of the loop, with the tests that
    lead to it; a property of the loop is proved by going through them. *)

Section ParseInd.
Variable E : Env.
Variable cmd : string.
Variable P : list string -> M (list string) -> Prop.

Hypothesis P_end : P [] (mret []).
Hypothesis P_break : forall opt rest,
  is_option opt = false -> P (opt :: rest) (mret (opt :: rest)).
Hypothesis P_help : forall opt rest,
  is_option opt = true -> is_help opt = true -> P (opt :: rest) (usage cmd).
Hypothesis P_flag : forall opt rest f,
  is_option opt = true -> is_help opt = false -> flag_option opt = Some f ->
  P rest (parse_loop E cmd rest) ->
  P (opt :: rest) (modify_settings f ;; parse_loop E cmd rest).
Hypothesis P_no_value : forall opt,
  is_option opt = true -> is_help opt = false -> flag_option opt = None ->
  P [opt]
    (print_cerr (cat [ "Error: value missing or bad option '"; opt; ln "'." ]) ;;
     usage cmd).
Hypothesis P_string : forall opt argop rest act,
  is_option opt = true -> is_help opt = false -> flag_option opt = None ->
  string_option E opt argop = Some act ->
  P rest (parse_loop E cmd rest) ->
  P (opt :: argop :: rest) (act ;; parse_loop E cmd rest).
Hypothesis P_no_file : forall opt argop,
  is_option opt = true -> is_help opt = false -> flag_option opt = None ->
  string_option E opt argop = None -> opt = "-p" ->
  P [opt; argop]
    (print_cerr (cat [ "Error: filename missing after '"; opt; " "; argop;
                       ln "'." ]) ;;
     usage cmd).
Hypothesis P_print : forall opt argop argop2 rest,
  is_option opt = true -> is_help opt = false -> flag_option opt = None ->
  string_option E opt argop = None -> opt = "-p" ->
  P rest (parse_loop E cmd rest) ->
  P (opt :: argop :: argop2 :: rest)
    (modify (fun g => put_outfiles (<[argop := argop2]> (outfiles g)) g) ;;
     parse_loop E cmd rest).
Hypothesis P_int : forall opt argop rest f,
  is_option opt = true -> is_help opt = false -> flag_option opt = None ->
  string_option E opt argop = None -> opt <> "-p" ->
  int_option opt (atoi argop) = Some f ->
  P rest (parse_loop E cmd rest) ->
  P (opt :: argop :: rest) (modify f ;; parse_loop E cmd rest).
Hypothesis P_unknown : forall opt argop rest,
  is_option opt = true -> is_help opt = false -> flag_option opt = None ->
  string_option E opt argop = None -> opt <> "-p" ->
  int_option opt (atoi argop) = None ->
  P (opt :: argop :: rest)
    (print_cerr (cat [ "Error: option '"; opt; ln "' not recognized." ]) ;;
     usage cmd).

Lemma parse_loop_cases : forall args, P args (parse_loop E cmd args).
Proof.
  intros args. remember (length args) as n eqn:Hn.
  revert args Hn. induction n as [n IH] using lt_wf_ind. intros args Hn.
  assert (IH' : forall l, (length l < length args)%nat -> P l (parse_loop E cmd l)).
  { intros l Hl. apply (IH (length l)); [lia | reflexivity]. }
  clear IH Hn.
  destruct args as [|opt rest]; [exact P_end|].
  cbn [parse_loop].
  destruct (is_option opt) eqn:Hopt; [|auto].
  destruct (is_help opt) eqn:Hhelp; [auto|].
  destruct (flag_option opt) as [f|] eqn:Hflag.
  { apply P_flag; auto; apply IH'; simpl; lia. }
  destruct rest as [|argop rest]; [auto|].
  destruct (string_option E opt argop) as [act|] eqn:Hstr.
  { apply P_string; auto; apply IH'; simpl; lia. }
  destruct (String.eqb_spec opt "-p") as [Hp|Hp].
  { destruct rest as [|argop2 rest]; [auto|].
    apply P_print; auto; apply IH'; simpl; lia. }
  destruct (int_option opt (atoi argop)) as [f|] eqn:Hint.
  { apply P_int; auto; apply IH'; simpl; lia. }
  auto.
Qed.
End ParseInd.

(** ** Every step of [parseOpts] keeps to [setup_post] *)

Lemma string_option_setup E cmd opt argop act :
  string_option E opt argop = Some act -> satisfies act (setup_post cmd).
Proof.
  unfold string_option. intros H.
  repeat match type of H with
         | (if ?b then _ else _) = _ => destruct b
         end;
    try discriminate; injection H as <-; repeat setup_step.
  destruct (String.eqb opt "-fold"); repeat setup_step.
Qed.

Lemma int_option_setup cmd opt val f :
  int_option opt val = Some f -> satisfies (modify f) (setup_post cmd).
Proof.
  unfold int_option. intros H.
  repeat match type of H with
         | (if ?b then _ else _) = _ => destruct b
         end;
    try discriminate; injection H as <-; repeat setup_step.
Qed.

Lemma parse_loop_setup E cmd args :
  satisfies (parse_loop E cmd args) (setup_post cmd).
Proof.
  apply parse_loop_cases; intros; subst;
    try (repeat setup_step; auto; fail).
  - apply setup_bind; [| intros _; assumption].
    eapply string_option_setup; eassumption.
  - apply setup_bind; [| intros _; assumption].
    eapply int_option_setup; eassumption.
Qed.

Lemma set_radius_if_applicable_setup cmd sp :
  satisfies (set_radius_if_applicable cmd sp) (setup_post cmd).
Proof.
  unfold set_radius_if_applicable.
  destruct (as_radius_base sp) as [srp|]; repeat setup_step.
  destruct (0 <=? radius a); repeat setup_step.
  destruct (set_radius srp (soln_calls a) (radius a)); repeat setup_step.
Qed.

Lemma call_define_setup cmd sp : satisfies (call_define sp) (setup_post cmd).
Proof.
  unfold call_define. repeat setup_step.
  destruct (define sp (soln_calls a)); repeat setup_step.
Qed.

Lemma setup_solution_setup cmd sp :
  satisfies (setup_solution cmd sp) (setup_post cmd).
Proof.
  unfold setup_solution. repeat setup_step.
  - apply set_radius_if_applicable_setup.
  - apply call_define_setup.
Qed.

Lemma parseOpts_setup E cmd args :
  satisfies (parseOpts E cmd args) (setup_post cmd).
Proof.
  unfold parseOpts. repeat setup_step.
  - destruct args; repeat setup_step.
  - apply parse_loop_setup.
  - destruct a0; repeat setup_step.
  - destruct (String.length (solutionName a2) =? 0)%nat; repeat setup_step.
  - destruct (stencils a2 !! solutionName a2) as [sp|]; repeat setup_step.
    apply setup_solution_setup.
Qed.

(** ** What a successful [parseOpts] went through *)

Lemma parse_loop_stencils E cmd args g r g' :
  parse_loop E cmd args g = (r, g') -> stencils g' = stencils g.
Proof.
  intros H. pose proof (parse_loop_setup E cmd args g) as Hs.
  rewrite H in Hs. apply Hs.
Qed.

Lemma parseOpts_run E cmd args g g1 sp :
  args <> [] ->
  parse_loop E cmd args g = (Ret [], g1) ->
  solutionName g1 <> EmptyString ->
  stencils g1 !! solutionName g1 = Some sp ->
  parseOpts E cmd args g = setup_solution cmd sp g1.
Proof.
  intros Hargs Hloop Hname Hsp. unfold parseOpts.
  destruct args as [|a args]; [congruence|].
  rewrite bind_run. cbn [mret M_ret]. rewrite bind_run, Hloop.
  rewrite bind_run. cbn [mret M_ret]. rewrite bind_run. cbn [get].
  rewrite bind_run.
  destruct (solutionName g1) as [|c s] eqn:Hn; [congruence|].
  cbn [String.length Nat.eqb mret M_ret]. rewrite Hsp. reflexivity.
Qed.

Lemma parseOpts_Ret E cmd args g g' :
  parseOpts E cmd args g = (Ret tt, g') ->
  exists g1 sp,
    args <> [] /\ parse_loop E cmd args g = (Ret [], g1) /\
    solutionName g1 <> EmptyString /\
    stencils g1 !! solutionName g1 = Some sp /\
    setup_solution cmd sp g1 = (Ret tt, g').
Proof.
  unfold parseOpts. intros H.
  apply bind_Ret_inv in H as ([] & g0 & H0 & H).
  destruct args as [|a args]; [discriminate|]. injection H0 as <-.
  apply bind_Ret_inv in H as (left & g1 & Hloop & H).
  apply bind_Ret_inv in H as ([] & g2 & H2 & H).
  destruct left as [|b left]; [|discriminate]. injection H2 as <-.
  apply bind_Ret_inv in H as (g3 & g4 & H3 & H). injection H3 as <- <-.
  apply bind_Ret_inv in H as ([] & g5 & H5 & H).
  destruct (solutionName g1) as [|c s] eqn:Hn; [discriminate|].
  cbn [String.length Nat.eqb] in H5. injection H5 as <-.
  destruct (stencils g1 !! String c s) as [sp|] eqn:Hsp; [|discriminate].
  exists g1, sp. rewrite Hn. repeat split; try assumption; discriminate.
Qed.

(** What [setup_solution] leaves when it returns. *)
Lemma setup_solution_Ret cmd sp g g' :
  setup_solution cmd sp g = (Ret tt, g') ->
  stencilSoln g' = Some sp /\ outfiles g' = outfiles g /\
  settings g' = settings g /\ solutionName g' = solutionName g /\
  radius g' = radius g /\
  exists h, soln_calls g' = soln_calls g ++ h ++ [CallDefine].
Proof.
  unfold setup_solution, set_radius_if_applicable, call_define.
  destruct (as_radius_base sp) as [srp|].
  - destruct (0 <=? radius g) eqn:Hr.
    + destruct (set_radius srp (soln_calls g) (radius g)) eqn:Hok.
      * unfold mbind, M_bind, mret, M_ret, get, modify, print_cout,
          record_call, throw; simpl. rewrite Hr. simpl. rewrite Hok. simpl.
        match goal with |- context [define sp ?h] => destruct (define sp h) end;
          [discriminate|].
        intros [= <-]. simpl. repeat split.
        eexists [_; _]. rewrite <- !app_assoc. reflexivity.
      * unfold mbind, M_bind, mret, M_ret, get, modify, print_cout,
          record_call, throw; simpl. rewrite Hr. simpl. rewrite Hok. simpl.
        discriminate.
    + unfold mbind, M_bind, mret, M_ret, get, modify, print_cout,
        record_call, throw; simpl. rewrite Hr. simpl.
      match goal with |- context [define sp ?h] => destruct (define sp h) end;
        [discriminate|].
      intros [= <-]. simpl. repeat split.
      eexists [_]. rewrite <- !app_assoc. reflexivity.
  - unfold mbind, M_bind, mret, M_ret, get, modify, print_cout,
      record_call, throw; simpl.
    match goal with |- context [define sp ?h] => destruct (define sp h) end;
      [discriminate|].
    intros [= <-]. simpl. repeat split.
    eexists [_]. rewrite <- !app_assoc. reflexivity.
Qed.

(** ** The loop over [outfiles] *)

Lemma emit_bind {A B : Type} (m : M A) (k : A -> M B) :
  satisfies m emit_post -> (forall a, satisfies (k a) emit_post) ->
  satisfies (m ≫= k) emit_post.
Proof.
  intros Hm Hk g Hsel. specialize (Hm g Hsel). rewrite bind_run.
  destruct (m g) as [[a|c|msg|] g1]; simpl in *; try exact Hm.
  destruct Hm as (Hs & Hsol & He & (mid & Ho) & _).
  assert (Hsel1 : is_Some (stencilSoln g1)) by (rewrite Hsol; exact Hsel).
  specialize (Hk a g1 Hsel1). destruct (k a g1) as [r g2]; simpl in *.
  destruct Hk as (Hs' & Hsol' & He' & (mid' & Ho') & Hr).
  repeat split; try congruence.
  exists (mid ++ mid'). rewrite Ho', Ho, <- app_assoc. reflexivity.
Qed.

Lemma emit_one_emit E i : satisfies (emit_one E i) emit_post.
Proof.
  intros g [sp Hsp]. unfold emit_one, write_output.
  destruct (String.eqb i.2 "-").
  - unfold mbind, M_bind, mret, M_ret, get, modify, print_cout, record_call,
      throw; simpl. rewrite Hsp. simpl.
    destruct (format (_soln sp) (soln_calls g) i.1); simpl; repeat split;
      first [ assumption
            | eexists [_]; reflexivity
            | exists []; rewrite app_nil_r; reflexivity ].
  - destruct (new_file_output E i.2).
    + simpl. repeat split. exists []. rewrite app_nil_r. reflexivity.
    + unfold mbind, M_bind, mret, M_ret, get, modify, print_cout, record_call,
        throw; simpl. rewrite Hsp. simpl.
      destruct (format (_soln sp) (soln_calls g) i.1); simpl; repeat split;
        first [ assumption | exists []; rewrite app_nil_r; reflexivity ].
Qed.

Lemma emit_all_emit E l : satisfies (for_each (emit_one E) l) emit_post.
Proof.
  induction l as [|i l IH]; simpl.
  - intros g _. simpl. repeat split. exists []. rewrite app_nil_r. reflexivity.
  - apply emit_bind; [apply emit_one_emit | intros _; exact IH].
Qed.



(** ** How the option loop composes *)

(** A prefix of the arguments that the loop consumes whole and without
    error leaves the loop where it would start on the rest. *)
Lemma parse_loop_app E cmd suf pre :
  forall g g1,
    parse_loop E cmd pre g = (Ret [], g1) ->
    parse_loop E cmd (pre ++ suf) g = parse_loop E cmd suf g1.
Proof.
  apply (parse_loop_cases E cmd (fun pre m =>
    forall g g1, m g = (Ret [], g1) ->
      parse_loop E cmd (pre ++ suf) g = parse_loop E cmd suf g1)).
  - intros g g1 [= <-]. reflexivity.
  - intros opt rest _ g g1 H. discriminate.
  - intros opt rest _ _ g g1 H. discriminate.
  - intros opt rest f Ho Hh Hf IH g g1 H.
    apply bind_Ret_inv in H as ([] & g0 & H0 & H).
    cbn [app parse_loop]. rewrite Ho, Hh, Hf.
    rewrite (bind_Ret _ _ _ _ _ H0). apply IH, H.
  - intros opt _ _ _ g g1 H. discriminate.
  - intros opt argop rest act Ho Hh Hf Hs IH g g1 H.
    apply bind_Ret_inv in H as ([] & g0 & H0 & H).
    cbn [app parse_loop]. rewrite Ho, Hh, Hf, Hs.
    rewrite (bind_Ret _ _ _ _ _ H0). apply IH, H.
  - intros opt argop _ _ _ _ _ g g1 H. discriminate.
  - intros opt argop argop2 rest Ho Hh Hf Hs -> IH g g1 H.
    apply bind_Ret_inv in H as ([] & g0 & H0 & H).
    cbn [app parse_loop]. rewrite Ho, Hh, Hf, Hs. cbn [String.eqb Ascii.eqb Bool.eqb].
    rewrite (bind_Ret _ _ _ _ _ H0). apply IH, H.
  - intros opt argop rest f Ho Hh Hf Hs Hp Hi IH g g1 H.
    apply bind_Ret_inv in H as ([] & g0 & H0 & H).
    cbn [app parse_loop]. rewrite Ho, Hh, Hf, Hs.
    destruct (String.eqb_spec opt "-p") as [|_]; [contradiction|].
    rewrite Hi. rewrite (bind_Ret _ _ _ _ _ H0). apply IH, H.
  - intros opt argop rest _ _ _ _ _ _ g g1 H. discriminate.
Qed.

(** The single steps of the loop that the statements below name. *)
Lemma parse_loop_help E cmd opt rest g :
  is_help opt = true ->
  parse_loop E cmd (opt :: rest) g = usage cmd g.
Proof.
  intros Hh. cbn [parse_loop].
  assert (Ho : is_option opt = true).
  { unfold is_help in Hh.
    destruct (String.eqb_spec opt "-h") as [->|_]; [reflexivity|].
    destruct (String.eqb_spec opt "-help") as [->|_]; [reflexivity|].
    destruct (String.eqb_spec opt "--help") as [->|_]; [reflexivity|].
    discriminate. }
  rewrite Ho, Hh. reflexivity.
Qed.



Lemma parse_loop_stencil E cmd v rest g :
  parse_loop E cmd ("-stencil" :: v :: rest) g =
  parse_loop E cmd rest (put_solutionName v g).
Proof. reflexivity. Qed.

Lemma parse_loop_elem_bytes E cmd v rest g :
  parse_loop E cmd ("-elem-bytes" :: v :: rest) g =
  parse_loop E cmd rest (put_settings (set_elem_bytes (atoi v) (settings g)) g).
Proof. reflexivity. Qed.


(** ** Where the selected name comes from *)

Lemma string_option_solutionName E opt argop act g g' :
  string_option E opt argop = Some act ->
  act g = (Ret tt, g') ->
  solutionName g' = solutionName g \/
  (opt = "-stencil" /\ solutionName g' = argop).
Proof.
  unfold string_option. intros H Hrun.
  destruct (String.eqb_spec opt "-stencil") as [->|_].
  { injection H as <-. injection Hrun as <-. right. split; reflexivity. }
  left.
  assert (Hfe : forall (A : Type) (body : A -> M unit) (l : list A) g g',
    (forall a g g', body a g = (Ret tt, g') -> solutionName g' = solutionName g) ->
    for_each body l g = (Ret tt, g') -> solutionName g' = solutionName g).
  { intros A body l. induction l as [|a l IH]; intros h h' Hb Hl; simpl in Hl.
    - injection Hl as <-. reflexivity.
    - apply bind_Ret_inv in Hl as ([] & h1 & H1 & Hl).
      rewrite (IH _ _ Hb Hl). eapply Hb, H1. }
  repeat match type of H with
         | (if ?b then _ else _) = _ => destruct b
         end;
    try discriminate; injection H as <-.
  - injection Hrun as <-. reflexivity.
  - injection Hrun as <-. reflexivity.
  - injection Hrun as <-. reflexivity.
  - apply bind_Ret_inv in Hrun as ([] & g1 & H1 & Hrun). injection H1 as <-.
    apply bind_Ret_inv in Hrun as (l & g2 & H2 & Hrun).
    destruct (parseList E argop); [|discriminate]. injection H2 as <- <-.
    apply Hfe in Hrun; [exact Hrun|]. intros d h h' [= <-]. reflexivity.
  - apply bind_Ret_inv in Hrun as (l & g2 & H2 & Hrun).
    destruct (parseKeyValuePairs E argop); [|discriminate]. injection H2 as <- <-.
    apply Hfe in Hrun; [exact Hrun|]. intros d h h' Hb.
    destruct (String.eqb opt "-fold"); injection Hb as <-; reflexivity.
Qed.

Lemma int_option_solutionName opt val f g :
  int_option opt val = Some f -> solutionName (f g) = solutionName g.
Proof.
  unfold int_option. intros H.
  repeat match type of H with
         | (if ?b then _ else _) = _ => destruct b
         end;
    try discriminate; injection H as <-; reflexivity.
Qed.

Lemma stencil_named_cons a args sname :
  stencil_named args sname -> stencil_named (a :: args) sname.
Proof. intros (pre & post & ->). exists (a :: pre), post. reflexivity. Qed.

Lemma parse_loop_solutionName E cmd args :
  forall g left g',
    parse_loop E cmd args g = (Ret left, g') ->
    solutionName g' = solutionName g \/ stencil_named args (solutionName g').
Proof.
  apply (parse_loop_cases E cmd (fun args m =>
    forall g left g', m g = (Ret left, g') ->
      solutionName g' = solutionName g \/ stencil_named args (solutionName g'))).
  - intros g left g' [= _ <-]. left. reflexivity.
  - intros opt rest _ g left g' [= _ <-]. left. reflexivity.
  - intros opt rest _ _ g left g' H. discriminate.
  - intros opt rest f _ _ _ IH g left g' H.
    apply bind_Ret_inv in H as ([] & g0 & H0 & H). injection H0 as <-.
    destruct (IH _ _ _ H) as [Hs|Hs]; [left; exact Hs|].
    right. apply stencil_named_cons, Hs.
  - intros opt _ _ _ g left g' H. discriminate.
  - intros opt argop rest act _ _ _ Hs IH g left g' H.
    apply bind_Ret_inv in H as ([] & g0 & H0 & H).
    destruct (IH _ _ _ H) as [Hn|Hn].
    + destruct (string_option_solutionName _ _ _ _ _ _ Hs H0) as [Hk|[-> Hk]].
      * left. congruence.
      * right. exists [], rest. rewrite Hn, Hk. reflexivity.
    + right. do 2 apply stencil_named_cons. exact Hn.
  - intros opt argop _ _ _ _ _ g left g' H. discriminate.
  - intros opt argop argop2 rest _ _ _ _ _ IH g left g' H.
    apply bind_Ret_inv in H as ([] & g0 & H0 & H). injection H0 as <-.
    destruct (IH _ _ _ H) as [Hs|Hs]; [left; exact Hs|].
    right. do 3 apply stencil_named_cons. exact Hs.
  - intros opt argop rest f _ _ _ _ _ Hi IH g left g' H.
    apply bind_Ret_inv in H as ([] & g0 & H0 & H). injection H0 as <-.
    destruct (IH _ _ _ H) as [Hs|Hs].
    + left. rewrite Hs. eapply int_option_solutionName, Hi.
    + right. do 2 apply stencil_named_cons. exact Hs.
  - intros opt argop rest _ _ _ _ _ _ g left g' H. discriminate.
Qed.

(** ** The ways [main] ends *)

Lemma emit_outputs_emit E : satisfies (emit_outputs E) emit_post.
Proof.
  unfold emit_outputs. apply emit_bind.
  - intros g _. simpl. repeat split. exists []. rewrite app_nil_r. reflexivity.
  - intros g0. apply emit_bind; [| intros _; apply emit_all_emit].
    destruct (bool_decide (size (outfiles g0) = 0%nat)).
    + intros g _. simpl. repeat split. eexists [_]. reflexivity.
    + intros g _. simpl. repeat split. exists []. rewrite app_nil_r. reflexivity.
Qed.


Lemma parseOpts_selects E cmd args g g1 :
  parseOpts E cmd args g = (Ret tt, g1) -> is_Some (stencilSoln g1).
Proof.
  intros H. apply parseOpts_Ret in H as (g0 & sp & _ & _ & _ & _ & H).
  apply setup_solution_Ret in H as (H & _). rewrite H. eexists. reflexivity.
Qed.

Lemma main_body_cases E cmd args g :
  (exists g1 g2, parseOpts E cmd args g = (Ret tt, g1) /\
     emit_outputs E g1 = (Ret tt, g2) /\
     main_body E cmd args g = (Ret tt, g2)) \/
  (exists g1 msg g2, parseOpts E cmd args g = (Ret tt, g1) /\
     emit_outputs E g1 = (Thrown msg, g2) /\
     main_body E cmd args g = (Thrown msg, g2)) \/
  (exists msg g1, parseOpts E cmd args g = (Thrown msg, g1) /\
     main_body E cmd args g = (Thrown msg, g1)) \/
  (exists g1, parseOpts E cmd args g = (Exited 1, g1) /\
     main_body E cmd args g = (Exited 1, g1)).
Proof.
  unfold main_body. rewrite bind_run.
  pose proof (parseOpts_setup E cmd args g) as Hs.
  destruct (parseOpts E cmd args g) as [[[]|c|msg|] g1] eqn:Hp; simpl in Hs.
  - pose proof (emit_outputs_emit E g1 (parseOpts_selects _ _ _ _ _ Hp)) as He.
    cbn beta iota.
    destruct (emit_outputs E g1) as [[[]|c|msg|] g2] eqn:Hem; simpl in He.
    + left. exists g1, g2. repeat split; assumption.
    + exfalso. apply He.
    + right. left. exists g1, msg, g2. repeat split; assumption.
    + exfalso. apply He.
  - destruct Hs as (_ & _ & _ & -> & _). right. right. right. exists g1.
    split; reflexivity.
  - right. right. left. exists msg, g1. split; reflexivity.
  - exfalso. apply Hs.
Qed.

Lemma main_run E cmd args g :
  main E cmd args g =
  match main_body E cmd args (started E g) with
  | (Ret _, g') =>
      (ExitStatus 0,
       put_cout (cout g' ++ [ln "YASK Stencil Compiler: done."]) g')
  | (Exited c, g') => (ExitStatus c, g')
  | (Thrown msg, g') =>
      (ExitStatus 1, put_cerr (cerr g' ++ [exception_line msg]) g')
  | (Aborted, g') => (AbortSignal, g')
  end.
Proof. reflexivity. Qed.

(** [parseOpts] does not return: [main] ends with exit code 1, having
    rendered nothing. *)
Lemma main_parse_failure E cmd args g :
  (forall g1, parseOpts E cmd args (started E g) <> (Ret tt, g1)) ->
  exists g', main E cmd args g = (ExitStatus 1, g') /\
    files g' = files g /\
    format_calls (soln_calls g') = format_calls (soln_calls g).
Proof.
  intros Hno. rewrite main_run.
  pose proof (parseOpts_setup E cmd args (started E g)) as Hs.
  destruct (main_body_cases E cmd args (started E g))
    as [(g1 & g2 & Hp & _)|[(g1 & msg & g2 & Hp & _)
       |[(msg & g1 & Hp & ->)|(g1 & Hp & ->)]]];
    try (exfalso; eapply Hno; exact Hp);
    rewrite Hp in Hs; destruct Hs as (_ & Hf & Hc & _);
    eexists; (split; [reflexivity|]); split; assumption.
Qed.

(** Without a registered name among the values of [-stencil], [parseOpts]
    does not return. *)
Lemma stencil_named_values args sname :
  stencil_named args sname -> In sname (stencil_values args).
Proof.
  intros (pre & post & ->). induction pre as [|a pre IH].
  - simpl. left. reflexivity.
  - change ((a :: pre) ++ "-stencil" :: sname :: post)
      with (a :: (pre ++ "-stencil" :: sname :: post)).
    cbn [stencil_values]. apply in_or_app. right. exact IH.
Qed.

Lemma parseOpts_unregistered E cmd args g :
  solutionName g = EmptyString ->
  no_registered_stencil (stencils g) args ->
  forall g1, parseOpts E cmd args g <> (Ret tt, g1).
Proof.
  intros Hempty Hall g1 H.
  assert (Hnone : forall sname, stencil_named args sname ->
                                stencils g !! sname = None).
  { intros sname Hs. apply stencil_named_values in Hs.
    unfold no_registered_stencil in Hall. rewrite List.Forall_forall in Hall.
    apply Hall, Hs. }
  apply parseOpts_Ret in H as (g0 & sp & _ & Hloop & Hne & Hsp & _).
  rewrite (parse_loop_stencils _ _ _ _ _ _ Hloop) in Hsp.
  destruct (parse_loop_solutionName _ _ _ _ _ _ Hloop) as [Hs|Hs].
  - rewrite Hs in Hne. contradiction.
  - rewrite (Hnone _ Hs) in Hsp. discriminate.
Qed.



(** The loop ends in [usage]: so does [parseOpts]. *)
Lemma parseOpts_loop_exit E cmd args g c g1 :
  args <> [] ->
  parse_loop E cmd args g = (Exited c, g1) ->
  parseOpts E cmd args g = (Exited c, g1).
Proof.
  intros Hargs H. unfold parseOpts. destruct args as [|a args]; [congruence|].
  rewrite bind_run. cbn [mret M_ret]. rewrite bind_run, H. reflexivity.
Qed.


(** The loop is through, but the name it leaves is empty or unknown. *)
Lemma parseOpts_unselected E cmd args g g1 :
  args <> [] ->
  parse_loop E cmd args g = (Ret [], g1) ->
  solutionName g1 = EmptyString \/ stencils g1 !! solutionName g1 = None ->
  parseOpts E cmd args g =
  (print_cerr (unselected_line g1) ;; usage cmd) g1.
Proof.
  intros Hargs Hloop Hsel. unfold parseOpts, unselected_line.
  destruct args as [|a args]; [congruence|].
  rewrite bind_run. cbn [mret M_ret]. rewrite bind_run, Hloop.
  rewrite bind_run. cbn [mret M_ret]. rewrite bind_run. cbn [get].
  rewrite bind_run.
  destruct (String.length (solutionName g1) =? 0)%nat eqn:Hlen.
  - reflexivity.
  - cbn [mret M_ret]. destruct Hsel as [Hsel|Hsel].
    + rewrite Hsel in Hlen. discriminate.
    + rewrite Hsel. reflexivity.
Qed.
(** ** Exit codes and error reports *)

Lemma main_status_zero E cmd args g :
  (main E cmd args g).1 = ExitStatus 0 <->
  exists g1 g2, parseOpts E cmd args (started E g) = (Ret tt, g1) /\
                emit_outputs E g1 = (Ret tt, g2).
Proof.
  rewrite main_run.
  destruct (main_body_cases E cmd args (started E g))
    as [(g1 & g2 & Hp & He & ->)|[(g1 & msg & g2 & Hp & He & ->)
       |[(msg & g1 & Hp & ->)|(g1 & Hp & ->)]]]; simpl.
  - split; [intros _; exists g1, g2; split; assumption | reflexivity].
  - split; [discriminate|]. intros (h1 & h2 & Hp' & He'). congruence.
  - split; [discriminate|]. intros (h1 & h2 & Hp' & He'). congruence.
  - split; [discriminate|]. intros (h1 & h2 & Hp' & He'). congruence.
Qed.




(** The three shapes of a failed run: an exception reported by the handler
    of [main], an error reported by [parseOpts] before the help, the help
    alone. *)
Lemma main_failure E cmd args g g' :
  main E cmd args g = (ExitStatus 1, g') ->
  (exists msg, cerr g' = cerr g ++ [exception_line msg] /\
     exists mid, cout g' = cout g ++ mid) \/
  (exists l, driver_error l /\ cerr g' = cerr g ++ [l] /\
     exists mid, cout g' = cout g ++ mid ++ [usage_text cmd g']) \/
  (cerr g' = cerr g /\
   exists mid, cout g' = cout g ++ mid ++ [usage_text cmd g']).
Proof.
  rewrite main_run.
  pose proof (parseOpts_setup E cmd args (started E g)) as Hs.
  destruct (main_body_cases E cmd args (started E g))
    as [(g1 & g2 & Hp & He & ->)|[(g1 & msg & g2 & Hp & He & ->)
       |[(msg & g1 & Hp & ->)|(g1 & Hp & ->)]]];
    rewrite Hp in Hs; simpl in Hs.
  - discriminate.
  - intros [= <-]. left. exists msg.
    pose proof (emit_outputs_emit E g1 (parseOpts_selects _ _ _ _ _ Hp)) as Hq.
    rewrite He in Hq. simpl in Hq.
    destruct Hq as (_ & _ & Hc & (mid2 & Ho2) & _).
    destruct Hs as (_ & _ & _ & Hc1 & mid1 & Ho1). simpl in *. split.
    + rewrite Hc, Hc1. reflexivity.
    + exists ([banner E] ++ mid1 ++ mid2).
      rewrite Ho2, Ho1, <- !app_assoc. reflexivity.
  - intros [= <-]. left. exists msg.
    destruct Hs as (_ & _ & _ & Hc1 & mid1 & Ho1). simpl in *. split.
    + rewrite Hc1. reflexivity.
    + exists ([banner E] ++ mid1). rewrite Ho1, <- !app_assoc. reflexivity.
  - intros [= <-]. right.
    destruct Hs as (_ & _ & _ & _ & (mid & Ho) & Hc). simpl in *.
    assert (Hout : exists mid', cout g1 = cout g ++ mid' ++ [usage_text cmd g1]).
    { exists ([banner E] ++ mid). rewrite Ho, <- !app_assoc. reflexivity. }
    destruct Hc as [Hc|(l & Hl & Hc)].
    + right. split; assumption.
    + left. exists l. repeat split; assumption.
Qed.





(** ** The required [-stencil] *)

(** C3: when no [-stencil] value of the command line names a registered
    solution, and so too when there is no [-stencil], the run ends with
    exit code 1, nothing is rendered and no file is written.  It is
    reported by the help on [cout] or, for an exception thrown while the
    options are handled, by the line of the handler on [cerr]; when the
    options are gone through to the end, the line on [cerr] says that the
    solution is not specified or is unknown. *)
Theorem stencil_required (E : Env) (cmd : string) (args : list string)
    (g : globals) :
  solutionName g = EmptyString ->
  no_registered_stencil (stencils g) args ->
  exists g',
    main E cmd args g = (ExitStatus 1, g') /\
    files g' = files g /\
    format_calls (soln_calls g') = format_calls (soln_calls g) /\
    ((exists mid, cout g' = cout g ++ mid ++ [usage_text cmd g']) \/
     (exists msg, cerr g' = cerr g ++ [exception_line msg])) /\
    (forall g1,
       args <> [] ->
       parse_loop E cmd args (started E g) = (Ret [], g1) ->
       cerr g' = cerr g ++ [unselected_line g1]).
Proof.
  intros Hempty Hall.
  assert (Hno : forall g1, parseOpts E cmd args (started E g) <> (Ret tt, g1))
    by (apply parseOpts_unregistered; assumption).
  destruct (main_parse_failure E cmd args g Hno) as (g' & Hmain & Hf & Hc).
  exists g'. repeat split; try assumption.
  - destruct (main_failure _ _ _ _ _ Hmain)
      as [(msg & Hce & _)|[(l & _ & _ & Ho)|(_ & Ho)]].
    + right. exists msg. exact Hce.
    + left. exact Ho.
    + left. exact Ho.
  - intros g1 Hargs Hloop.
    assert (Hsel : solutionName g1 = EmptyString \/
                   stencils g1 !! solutionName g1 = None).
    { destruct (parse_loop_solutionName _ _ _ _ _ _ Hloop) as [Hs|Hs].
      - left. rewrite Hs. exact Hempty.
      - right. rewrite (parse_loop_stencils _ _ _ _ _ _ Hloop).
        apply stencil_named_values in Hs.
        unfold no_registered_stencil in Hall.
        rewrite List.Forall_forall in Hall. apply Hall, Hs. }
    pose proof (parseOpts_unselected E cmd args _ _ Hargs Hloop Hsel) as Hp.
    rewrite error_usage_run in Hp.
    rewrite main_run in Hmain. unfold main_body in Hmain.
    rewrite bind_run, Hp in Hmain. injection Hmain as <-. simpl.
    pose proof (parse_loop_setup E cmd args (started E g)) as Hs.
    rewrite Hloop in Hs. destruct Hs as (_ & _ & _ & Hce & _).
    simpl in Hce. rewrite Hce. reflexivity.
Qed.

(** A closed run for [stencil_required]: a name that is not registered. *)
Lemma stencil_required_witness :
  exists g',
    main sample_env "yc" ["-stencil"; "nosuch"; "-p"; "cpp"; "-"]
      sample_globals = (ExitStatus 1, g') /\
    files g' = files sample_globals /\
    format_calls (soln_calls g') = format_calls (soln_calls sample_globals).
Proof.
  destruct (stencil_required sample_env "yc"
              ["-stencil"; "nosuch"; "-p"; "cpp"; "-"] sample_globals)
    as (g' & Hmain & Hf & Hc & _).
  - reflexivity.
  - repeat constructor.
  - exists g'. repeat split; assumption.
Defined.

(** ** The outputs *)













(** ** The help option *)

(** C5, as the code has it: when [-h] is reached as an option, that is
    when the arguments before it are options that the loop goes through
    whole and without error, the run writes the help to [cout], writes
    nothing to [cerr] and ends with exit code 1, whatever follows. *)
Theorem help_option_exits (E : Env) (cmd : string) (pre post : list string)
    (g g1 : globals) :
  parse_loop E cmd pre (started E g) = (Ret [], g1) ->
  exists g',
    main E cmd (pre ++ "-h" :: post) g = (ExitStatus 1, g') /\
    cout g' = cout g1 ++ [usage_text cmd g1] /\
    cerr g' = cerr g.
Proof.
  intros Hpre.
  assert (Hloop : parse_loop E cmd (pre ++ "-h" :: post) (started E g) =
                  usage cmd g1).
  { rewrite (parse_loop_app _ _ _ _ _ _ Hpre). apply parse_loop_help.
    reflexivity. }
  rewrite usage_run in Hloop.
  apply parseOpts_loop_exit in Hloop; [|destruct pre; discriminate].
  eexists. rewrite main_run. unfold main_body. rewrite bind_run, Hloop.
  split; [reflexivity|]. split; [reflexivity|]. simpl.
  pose proof (parse_loop_setup E cmd pre (started E g)) as Hs.
  rewrite Hpre in Hs. destruct Hs as (_ & _ & _ & Hce & _). exact Hce.
Qed.

(** A closed run for [help_option_exits]: [-h] after two flags. *)
Lemma help_option_exits_witness :
  exists g',
    main sample_env "yc" (["-fus"; "-no-opt-cse"] ++ "-h" :: ["-stencil"; "awp"])
      sample_globals = (ExitStatus 1, g') /\
    cerr g' = [].
Proof.
  destruct (help_option_exits sample_env "yc" ["-fus"; "-no-opt-cse"]
              ["-stencil"; "awp"] sample_globals
              (parse_loop sample_env "yc" ["-fus"; "-no-opt-cse"]
                 (started sample_env sample_globals)).2)
    as (g' & Hmain & _ & Hce).
  - reflexivity.
  - exists g'. split; [exact Hmain | exact Hce].
Defined.

(** C5 as stated fails: a [-h] that is the value of another option is no
    request for help, and the run ends with exit code 0. *)
Lemma help_as_value_no_help :
  (main sample_env "yc" ["-stencil"; "awp"; "-vars"; "-h"] sample_globals).1 =
    ExitStatus 0 /\
  _varRegex
    (settings
       (main sample_env "yc" ["-stencil"; "awp"; "-vars"; "-h"]
          sample_globals).2) = "-h".
Proof. vm_compute. split; reflexivity. Qed.

(** ** [-elem-bytes] *)

(** C6 does not hold of the code: [-elem-bytes 5] is stored as it is, no
    line is written to [cerr], the solution is given the settings with 5
    bytes per element and the run ends with exit code 0. *)
Lemma elem_bytes_not_checked :
  (main sample_env "yc" ["-stencil"; "awp"; "-elem-bytes"; "5"]
     sample_globals).1 = ExitStatus 0 /\
  cerr (main sample_env "yc" ["-stencil"; "awp"; "-elem-bytes"; "5"]
          sample_globals).2 = [] /\
  omap (fun c => match c with
                 | CallSetSettings s => Some (_elem_bytes s)
                 | _ => None
                 end)
    (soln_calls (main sample_env "yc" ["-stencil"; "awp"; "-elem-bytes"; "5"]
                   sample_globals).2) = [5].
Proof. vm_compute. repeat split. Qed.

(** ** [-radius] *)



(** ** The registry *)

(** C9: the constructor throws for a name that is a key of the registry,
    with a message saying that this stencil is already defined, and leaves
    the globals, the registry among them, as they were.  For a new name it
    enters the object under that name and changes no other entry (the
    factory returning a solution, else its assertion fails). *)
Theorem solution_names_unique (E : Env) (sname : string)
    (radius_part : option yc_solution_with_radius_base)
    (define_part : list call -> option string) (g : globals) :
  match stencils g !! sname with
  | Some _ =>
      yc_solution_base_ctor E sname radius_part define_part g =
      (Thrown ("Error: stencil '" +:+ sname +:+ "' already defined"), g)
  | None =>
      match new_solution E sname with
      | Some soln =>
          let this := {| _soln := soln; as_radius_base := radius_part;
                         define := define_part |} in
          let g' := put_stencils (<[sname := this]> (stencils g)) g in
          yc_solution_base_ctor E sname radius_part define_part g =
            (Ret this, g') /\
          stencils g' !! sname = Some this /\
          (forall other, other <> sname ->
             stencils g' !! other = stencils g !! other)
      | None =>
          yc_solution_base_ctor E sname radius_part define_part g =
          (Aborted, g)
      end
  end.
Proof.
  unfold yc_solution_base_ctor. rewrite bind_run. cbn [get].
  destruct (stencils g !! sname) as [old|] eqn:Hl.
  - rewrite bool_decide_eq_true_2; [reflexivity|]. eexists. reflexivity.
  - rewrite bool_decide_eq_false_2.
    2: { intros [x Hx]. discriminate. }
    destruct (new_solution E sname) as [soln|]; [|reflexivity].
    simpl. split; [reflexivity|]. split.
    + apply lookup_insert_eq.
    + intros other Hne. apply lookup_insert_ne. congruence.
Qed.

(** * Properties of [stencil_calc.hpp] *)

(** ** [StencilContext::compare] *)

Section CompareFacts.
Context {RealvGridBase : Type}.
Variable grid_get_name : RealvGridBase -> string.
Variable grid_compare : RealvGridBase -> RealvGridBase -> Z.

Let loop := compare_loop RealvGridBase grid_get_name grid_compare.
Let cmp := compare RealvGridBase grid_get_name grid_compare.

Lemma compare_loop_count ref rest : forall gi errs err,
  (loop ref gi rest errs err).1 =
  errs + sum_counts (imap (fun i => grid_count grid_compare ref (gi + i)) rest).
Proof.
  subst loop. induction rest as [|gp rest IH]; intros gi errs err; simpl.
  - lia.
  - unfold grid_count at 1. rewrite Nat.add_0_r.
    destruct (gridPtrs ref !! gi) as [rp|]; rewrite IH;
      rewrite (imap_ext _ (fun i => grid_count grid_compare ref (gi + S i)));
      try (intros; f_equal; lia); unfold compose; simpl; lia.
Qed.

Lemma compare_loop_split ref rest : forall gi errs err,
  (loop ref gi rest errs err).1 =
    errs + sum_counts (zip_with grid_compare rest (drop gi (gridPtrs ref)))
    + Z.of_nat (length rest - (length (gridPtrs ref) - gi)) /\
  length (loop ref gi rest errs err).2 =
    (length err + (length rest - (length (gridPtrs ref) - gi)))%nat.
Proof.
  subst loop. induction rest as [|gp rest IH]; intros gi errs err.
  - simpl. split; lia.
  - cbn [compare_loop].
    destruct (gridPtrs ref !! gi) as [rp|] eqn:Hl.
    + pose proof (lookup_lt_Some _ _ _ Hl) as Hlt.
      destruct (IH (S gi) (errs + grid_compare gp rp) err) as [-> ->].
      rewrite (drop_S _ _ _ Hl). simpl. split.
      * replace (length (gridPtrs ref) - gi)%nat
          with (S (length (gridPtrs ref) - S gi)) by lia.
        simpl. lia.
      * lia.
    + pose proof (lookup_ge_None_1 _ _ Hl) as Hge.
      destruct (IH (S gi) (errs + 1) (err ++ [cat [ "** grid '";
                  grid_get_name gp; "' not in stencil '"; ln (name ref) ]]))
        as [-> ->].
      rewrite !drop_ge by lia. rewrite length_app. simpl.
      rewrite !zip_with_nil_r. simpl.
      replace (length (gridPtrs ref) - gi)%nat with 0%nat by lia.
      replace (length (gridPtrs ref) - S gi)%nat with 0%nat by lia.
      split; lia.
Qed.

(** The loop reads the reference at the indices of the calling context
    only. *)
Lemma compare_loop_ext ref ref' rest : forall gi errs err,
  name ref = name ref' ->
  (forall i, (i < length rest)%nat ->
     gridPtrs ref !! (gi + i)%nat = gridPtrs ref' !! (gi + i)%nat) ->
  loop ref gi rest errs err = loop ref' gi rest errs err.
Proof.
  subst loop. induction rest as [|gp rest IH]; intros gi errs err Hn Hl.
  - reflexivity.
  - cbn [compare_loop].
    assert (H0 : gridPtrs ref !! gi = gridPtrs ref' !! gi).
    { rewrite <- (Nat.add_0_r gi). apply Hl. simpl. lia. }
    rewrite <- H0, <- Hn.
    assert (Hl' : forall i, (i < length rest)%nat ->
              gridPtrs ref !! (S gi + i)%nat = gridPtrs ref' !! (S gi + i)%nat).
    { intros i Hi. replace (S gi + i)%nat with (gi + S i)%nat by lia.
      apply Hl. simpl. lia. }
    destruct (gridPtrs ref !! gi); apply IH; assumption.
Qed.

(** C10: [compare] adds up, over the grids of the calling context in
    order, the mis-compares of each with the grid of the reference at the
    same index, and 1 for each whose index is beyond the grids of the
    reference (an index [gi] with [gi >= ref.gridPtrs.size()]), for which
    it also writes a line to [cerr].  The grids that the reference has
    beyond those of the calling context add nothing: the result is that
    against the reference cut to the length of the calling context.
    Without grids in the calling context the result is 0, whatever the
    reference.  So the comparison is not symmetric: one grid against none
    counts 1, none against one counts 0. *)
Theorem compare_counts (this ref : StencilContext RealvGridBase) :
  (cmp this ref).1 =
    sum_counts (imap (grid_count grid_compare ref) (gridPtrs this)) /\
  (cmp this ref).1 =
    sum_counts (zip_with grid_compare (gridPtrs this) (gridPtrs ref))
    + Z.of_nat (length (gridPtrs this) - length (gridPtrs ref)) /\
  length (cmp this ref).2 =
    (length (gridPtrs this) - length (gridPtrs ref))%nat /\
  cmp this ref =
    cmp this {| name := name ref;
                gridPtrs := take (length (gridPtrs this)) (gridPtrs ref) |} /\
  cmp {| name := name this; gridPtrs := [] |} ref = (0, []) /\
  (forall gp : RealvGridBase,
     (cmp {| name := name this; gridPtrs := [gp] |}
          {| name := name ref; gridPtrs := [] |}).1 = 1 /\
     (cmp {| name := name ref; gridPtrs := [] |}
          {| name := name this; gridPtrs := [gp] |}).1 = 0).
Proof.
  subst cmp. unfold compare. fold loop.
  split; [|split; [|split; [|split; [|split]]]].
  - rewrite compare_loop_count. simpl. reflexivity.
  - destruct (compare_loop_split ref (gridPtrs this) 0 0 []) as [-> _].
    rewrite drop_0, Nat.sub_0_r. lia.
  - destruct (compare_loop_split ref (gridPtrs this) 0 0 []) as [_ ->].
    simpl. rewrite Nat.sub_0_r. reflexivity.
  - apply compare_loop_ext; [reflexivity|].
    intros i Hi. simpl. symmetry. apply lookup_take_lt. exact Hi.
  - reflexivity.
  - intros gp. split; reflexivity.
Qed.

End CompareFacts.

(** ** [calc_cluster] from the block loops *)

Section BlockFacts.
Variables CLEN_N CLEN_X CLEN_Y CLEN_Z : Z.
Variables VLEN_N VLEN_X VLEN_Y VLEN_Z : Z.
Variable idiv : Z -> Z -> Z.
Variable USING_DIM_N : bool.





End BlockFacts.


(** * Further properties of the driver *)

Lemma setup_solution_selected cmd sp g r g' :
  setup_solution cmd sp g = (r, g') -> stencilSoln g' = Some sp.
Proof.
  unfold setup_solution, set_radius_if_applicable, call_define.
  destruct (as_radius_base sp) as [srp|].
  - destruct (0 <=? radius g) eqn:Hr.
    + destruct (set_radius srp (soln_calls g) (radius g)) eqn:Hok;
        unfold mbind, M_bind, mret, M_ret, get, modify, print_cout, print_cerr,
          record_call, throw, usage, exit; simpl; rewrite Hr; simpl;
        rewrite Hok; simpl.
      * match goal with |- context [define sp ?h] => destruct (define sp h) end;
          intros [= _ <-]; reflexivity.
      * intros [= _ <-]. reflexivity.
    + unfold mbind, M_bind, mret, M_ret, get, modify, print_cout, print_cerr,
        record_call, throw, usage, exit; simpl; rewrite Hr; simpl.
      match goal with |- context [define sp ?h] => destruct (define sp h) end;
        intros [= _ <-]; reflexivity.
  - unfold mbind, M_bind, mret, M_ret, get, modify, print_cout, print_cerr,
      record_call, throw, usage, exit; simpl.
    match goal with |- context [define sp ?h] => destruct (define sp h) end;
      intros [= _ <-]; reflexivity.
Qed.

(** The calls on a solution whose radius is not to be set. *)
Lemma setup_solution_no_radius cmd sp g r g' :
  radius g < 0 \/ as_radius_base sp = None ->
  setup_solution cmd sp g = (r, g') ->
  soln_calls g' = soln_calls g ++ [CallSetSettings (settings g); CallDefine] /\
  cerr g' = cerr g /\ files g' = files g /\
  r = match define sp (soln_calls g ++ [CallSetSettings (settings g)]) with
      | Some msg => Thrown msg
      | None => Ret tt
      end.
Proof.
  intros Hno. unfold setup_solution, set_radius_if_applicable, call_define.
  destruct (as_radius_base sp) as [srp|].
  - destruct Hno as [Hneg|Hno]; [|discriminate].
    assert (Hr : (0 <=? radius g) = false) by (apply Z.leb_gt; exact Hneg).
    unfold mbind, M_bind, mret, M_ret, get, modify, print_cout, print_cerr,
      record_call, throw, usage, exit; simpl; rewrite Hr; simpl.
    destruct (define sp (soln_calls g ++ [CallSetSettings (settings g)]));
      intros [= <- <-]; simpl; rewrite <- app_assoc; repeat split.
  - unfold mbind, M_bind, mret, M_ret, get, modify, print_cout, print_cerr,
      record_call, throw, usage, exit; simpl.
    destruct (define sp (soln_calls g ++ [CallSetSettings (settings g)]));
      intros [= <- <-]; simpl; rewrite <- app_assoc; repeat split.
Qed.

Lemma parse_loop_break E cmd a rest g :
  is_option a = false ->
  parse_loop E cmd (a :: rest) g = (Ret (a :: rest), g).
Proof. intros Ha. cbn [parse_loop]. rewrite Ha. reflexivity. Qed.

Lemma parseOpts_leftover E cmd args g a left g1 :
  args <> [] ->
  parse_loop E cmd args g = (Ret (a :: left), g1) ->
  parseOpts E cmd args g =
  (print_cerr (unrecognized_parameter_line a) ;; usage cmd) g1.
Proof.
  intros Hargs Hloop. unfold parseOpts.
  destruct args as [|b args]; [congruence|].
  rewrite bind_run. cbn [mret M_ret]. rewrite bind_run, Hloop.
  rewrite bind_run. reflexivity.
Qed.

(** X1: no run of [main] changes the registry: it is filled by the
    constructors before [main] and only read afterwards. *)
Theorem registry_read_only (E : Env) (cmd : string) (args : list string)
    (g : globals) :
  stencils (main E cmd args g).2 = stencils g.
Proof.
  rewrite main_run.
  pose proof (parseOpts_setup E cmd args (started E g)) as Hs.
  destruct (main_body_cases E cmd args (started E g))
    as [(g1 & g2 & Hp & He & ->)|[(g1 & msg & g2 & Hp & He & ->)
       |[(msg & g1 & Hp & ->)|(g1 & Hp & ->)]]];
    rewrite Hp in Hs; destruct Hs as (Hst & _); simpl in *;
    try exact Hst;
    pose proof (emit_outputs_emit E g1 (parseOpts_selects _ _ _ _ _ Hp)) as Hq;
    rewrite He in Hq; destruct Hq as (Hst2 & _); simpl in Hst2; congruence.
Qed.

(** X2: a run that ends with exit code 0 has written nothing to [cerr];
    on [cout] it began with the banner and ended with the line that says it
    is done. *)
Theorem success_silent (E : Env) (cmd : string) (args : list string)
    (g g' : globals) :
  main E cmd args g = (ExitStatus 0, g') ->
  cerr g' = cerr g /\
  exists mid, cout g' = cout g ++ [banner E] ++ mid ++ [done_line].
Proof.
  intros Hmain.
  assert (H0 : (main E cmd args g).1 = ExitStatus 0) by (rewrite Hmain; reflexivity).
  apply main_status_zero in H0 as (g1 & g2 & Hp & He).
  rewrite main_run in Hmain. unfold main_body in Hmain.
  rewrite (bind_Ret _ _ _ _ _ Hp), He in Hmain. injection Hmain as <-.
  pose proof (parseOpts_setup E cmd args (started E g)) as Hs.
  rewrite Hp in Hs. destruct Hs as (_ & _ & _ & Hce & mid1 & Hco).
  pose proof (emit_outputs_emit E g1 (parseOpts_selects _ _ _ _ _ Hp)) as Hq.
  rewrite He in Hq. destruct Hq as (_ & _ & Hce2 & (mid2 & Hco2) & _).
  simpl in *. split; [congruence|].
  exists (mid1 ++ mid2). rewrite Hco2, Hco, <- !app_assoc. reflexivity.
Qed.

Lemma success_silent_witness :
  cerr (main sample_env "yc" ["-stencil"; "awp"; "-p"; "cpp"; "-"]
          sample_globals).2 = [].
Proof.
  apply (success_silent sample_env "yc" ["-stencil"; "awp"; "-p"; "cpp"; "-"]
           sample_globals).
  vm_compute. reflexivity.
Defined.

(** X3: an argument that is reached where an option is expected and is
    not one (it does not start with a dash, or is a dash alone) ends the
    scan: whatever follows it, the run writes the one line that this
    parameter is unrecognized, then the help, renders nothing and ends with
    exit code 1. *)
Theorem non_option_stops_scan (E : Env) (cmd a : string)
    (pre rest : list string) (g g1 : globals) :
  parse_loop E cmd pre (started E g) = (Ret [], g1) ->
  is_option a = false ->
  exists g',
    main E cmd (pre ++ a :: rest) g = (ExitStatus 1, g') /\
    cerr g' = cerr g ++ [unrecognized_parameter_line a] /\
    cout g' = cout g1 ++ [usage_text cmd g1] /\
    soln_calls g' = soln_calls g1 /\ files g' = files g.
Proof.
  intros Hpre Ha.
  assert (Hloop : parse_loop E cmd (pre ++ a :: rest) (started E g) =
                  (Ret (a :: rest), g1)).
  { rewrite (parse_loop_app _ _ _ _ _ _ Hpre). apply parse_loop_break, Ha. }
  apply parseOpts_leftover in Hloop; [|destruct pre; discriminate].
  rewrite error_usage_run in Hloop.
  pose proof (parse_loop_setup E cmd pre (started E g)) as Hs.
  rewrite Hpre in Hs. destruct Hs as (_ & Hf & _ & Hce & _). simpl in Hce, Hf.
  eexists. rewrite main_run. unfold main_body. rewrite bind_run, Hloop.
  split; [reflexivity|]. simpl. rewrite Hce. repeat split. exact Hf.
Qed.

Lemma non_option_stops_scan_witness :
  exists g',
    main sample_env "yc" (["-stencil"; "awp"] ++ "-" :: ["-p"; "cpp"; "-"])
      sample_globals = (ExitStatus 1, g') /\
    cerr g' = [unrecognized_parameter_line "-"].
Proof.
  destruct (non_option_stops_scan sample_env "yc" "-" ["-stencil"; "awp"]
              ["-p"; "cpp"; "-"] sample_globals
              (put_solutionName "awp" (started sample_env sample_globals)))
    as (g' & Hmain & Hce & _).
  - reflexivity.
  - reflexivity.
  - exists g'. split; [exact Hmain | exact Hce].
Defined.

(** X4: [set_radius] is not called when the radius that the options leave
    is negative, as it is when there is no [-radius], nor on a solution
    without a radius: [parseOpts] then makes exactly the calls
    [setSettings] and [define()], and returns or throws as [define()]
    does. *)
Theorem radius_not_applied (E : Env) (cmd : string) (args : list string)
    (g g1 g2 : globals) (sp : yc_solution_base) (r : res unit) :
  args <> [] ->
  parse_loop E cmd args g = (Ret [], g1) ->
  solutionName g1 <> EmptyString ->
  stencils g1 !! solutionName g1 = Some sp ->
  radius g1 < 0 \/ as_radius_base sp = None ->
  parseOpts E cmd args g = (r, g2) ->
  soln_calls g2 = soln_calls g1 ++ [CallSetSettings (settings g1); CallDefine] /\
  r = match define sp (soln_calls g1 ++ [CallSetSettings (settings g1)]) with
      | Some msg => Thrown msg
      | None => Ret tt
      end.
Proof.
  intros Hargs Hloop Hname Hsp Hno Hp.
  rewrite (parseOpts_run _ _ _ _ _ _ Hargs Hloop Hname Hsp) in Hp.
  destruct (setup_solution_no_radius _ _ _ _ _ Hno Hp) as (Hc & _ & _ & Hr).
  split; assumption.
Qed.

Lemma radius_not_applied_witness :
  soln_calls
    (parseOpts sample_env "yc" ["-stencil"; "iso3dfd"] sample_globals).2 =
  [CallSetSettings (default_settings "stencil_bundle"); CallDefine].
Proof.
  destruct (radius_not_applied sample_env "yc" ["-stencil"; "iso3dfd"]
              sample_globals (put_solutionName "iso3dfd" sample_globals)
              (parseOpts sample_env "yc" ["-stencil"; "iso3dfd"] sample_globals).2
              (sample_solution "iso3dfd" true)
              (parseOpts sample_env "yc" ["-stencil"; "iso3dfd"] sample_globals).1)
    as (Hc & _).
  - discriminate.
  - reflexivity.
  - discriminate.
  - reflexivity.
  - left. reflexivity.
  - vm_compute. reflexivity.
  - exact Hc.
Defined.

(** X5: when [define()] of the selected solution, one without a radius,
    throws, the run renders nothing and writes no file; its one line on
    [cerr] is that of the handler with the message of the exception, and
    it ends with exit code 1. *)
Theorem define_failure_renders_nothing (E : Env) (cmd msg : string)
    (args : list string) (g g1 : globals) (sp : yc_solution_base) :
  args <> [] ->
  parse_loop E cmd args (started E g) = (Ret [], g1) ->
  solutionName g1 <> EmptyString ->
  stencils g1 !! solutionName g1 = Some sp ->
  as_radius_base sp = None ->
  define sp (soln_calls g1 ++ [CallSetSettings (settings g1)]) = Some msg ->
  exists g',
    main E cmd args g = (ExitStatus 1, g') /\
    cerr g' = cerr g ++ [exception_line msg] /\
    format_calls (soln_calls g') = format_calls (soln_calls g) /\
    files g' = files g.
Proof.
  intros Hargs Hloop Hname Hsp Hrad Hdef.
  destruct (parseOpts E cmd args (started E g)) as [r g2] eqn:Hp.
  pose proof (parseOpts_setup E cmd args (started E g)) as Hs.
  rewrite Hp in Hs. simpl in Hs.
  pose proof Hp as Hp'.
  rewrite (parseOpts_run _ _ _ _ _ _ Hargs Hloop Hname Hsp) in Hp'.
  destruct (setup_solution_no_radius _ _ _ _ _ (or_intror Hrad) Hp')
    as (_ & _ & _ & Hr).
  rewrite Hdef in Hr. subst r.
  destruct Hs as (_ & Hf & Hc & Hce & _).
  eexists. rewrite main_run. unfold main_body. rewrite bind_run, Hp.
  split; [reflexivity|]. simpl. rewrite Hce. repeat split; assumption.
Qed.

Lemma define_failure_renders_nothing_witness :
  exists g',
    main sample_env "yc" ["-stencil"; "broken"; "-p"; "cpp"; "out.hpp"]
      (put_stencils
         (<["broken" := {| _soln := sample_soln "broken";
                           as_radius_base := None;
                           define := fun _ => Some "Error: no vars" |}]>
            sample_registry) sample_globals) = (ExitStatus 1, g') /\
    cerr g' = [exception_line "Error: no vars"] /\
    files g' = ∅.
Proof.
  edestruct (define_failure_renders_nothing sample_env "yc" "Error: no vars"
               ["-stencil"; "broken"; "-p"; "cpp"; "out.hpp"]
               (put_stencils
                  (<["broken" := {| _soln := sample_soln "broken";
                                    as_radius_base := None;
                                    define := fun _ => Some "Error: no vars" |}]>
                     sample_registry) sample_globals))
    as (g' & Hmain & Hce & _ & Hf).
  - discriminate.
  - reflexivity.
  - discriminate.
  - reflexivity.
  - reflexivity.
  - reflexivity.
  - exists g'. repeat split; assumption.
Defined.





(** X7: of several [-stencil] options the last one counts.  When no
    [-stencil] follows, [-stencil v] leaves [v] as the name of the
    solution: if [v] is registered and not empty, that solution is the one
    selected however [parseOpts] ends, and if [v] is not registered
    [parseOpts] exits with code 1. *)
Theorem last_stencil_wins (E : Env) (cmd v : string) (pre post : list string)
    (g g0 g1 : globals) :
  parse_loop E cmd pre g = (Ret [], g0) ->
  parse_loop E cmd post (put_solutionName v g0) = (Ret [], g1) ->
  stencil_values post = [] ->
  let args := pre ++ "-stencil" :: v :: post in
  parse_loop E cmd args g = (Ret [], g1) /\
  solutionName g1 = v /\
  forall r g2,
    parseOpts E cmd args g = (r, g2) ->
    match stencils g !! v with
    | Some sp => v <> EmptyString -> stencilSoln g2 = Some sp
    | None => r = Exited 1
    end.
Proof.
  intros Hpre Hpost Hnone args.
  assert (Hloop : parse_loop E cmd args g = (Ret [], g1)).
  { unfold args. rewrite (parse_loop_app _ _ _ _ _ _ Hpre), parse_loop_stencil.
    exact Hpost. }
  assert (Hname : solutionName g1 = v).
  { destruct (parse_loop_solutionName _ _ _ _ _ _ Hpost) as [Hs|Hs].
    - exact Hs.
    - apply stencil_named_values in Hs. rewrite Hnone in Hs. destruct Hs. }
  assert (Hreg : stencils g1 = stencils g).
  { rewrite (parse_loop_stencils _ _ _ _ _ _ Hpost). simpl.
    apply (parse_loop_stencils _ _ _ _ _ _ Hpre). }
  assert (Hargs : args <> []) by (unfold args; destruct pre; discriminate).
  split; [exact Hloop|]. split; [exact Hname|].
  intros r g2 Hp. destruct (stencils g !! v) as [sp|] eqn:Hl.
  - intros Hv.
    rewrite (parseOpts_run E cmd args g g1 sp) in Hp; try assumption.
    + apply (setup_solution_selected _ _ _ _ _ Hp).
    + rewrite Hname. exact Hv.
    + rewrite Hreg, Hname. exact Hl.
  - rewrite (parseOpts_unselected E cmd args g g1) in Hp; try assumption.
    + rewrite error_usage_run in Hp. injection Hp as <- _. reflexivity.
    + right. rewrite Hreg, Hname. exact Hl.
Qed.

Lemma last_stencil_wins_witness :
  solutionName
    (parse_loop sample_env "yc"
       (["-stencil"; "awp"] ++ "-stencil" :: "iso3dfd" :: ["-fus"])
       sample_globals).2 = "iso3dfd".
Proof.
  destruct (last_stencil_wins sample_env "yc" "iso3dfd" ["-stencil"; "awp"]
              ["-fus"] sample_globals (put_solutionName "awp" sample_globals)
              (parse_loop sample_env "yc" ["-fus"]
                 (put_solutionName "iso3dfd"
                    (put_solutionName "awp" sample_globals))).2)
    as (Hloop & Hname & _).
  - reflexivity.
  - reflexivity.
  - reflexivity.
  - rewrite Hloop. exact Hname.
Defined.

(** X8: a solution that its constructor has registered under a name that
    is not empty is the one that [-stencil] with that name selects. *)
Theorem ctor_then_select (E : Env) (cmd sname : string)
    (radius_part : option yc_solution_with_radius_base)
    (define_part : list call -> option string)
    (g g' g2 : globals) (this : yc_solution_base) (r : res unit) :
  yc_solution_base_ctor E sname radius_part define_part g = (Ret this, g') ->
  sname <> EmptyString ->
  parseOpts E cmd ["-stencil"; sname] g' = (r, g2) ->
  stencilSoln g2 = Some this.
Proof.
  unfold yc_solution_base_ctor. rewrite bind_run. cbn [get].
  destruct (bool_decide (is_Some (stencils g !! sname))); [discriminate|].
  destruct (new_solution E sname) as [soln|]; [|discriminate].
  intros [= <- <-] Hne Hp.
  rewrite (parseOpts_run E cmd ["-stencil"; sname] _
             (put_solutionName sname
                (put_stencils
                   (<[sname := {| _soln := soln; as_radius_base := radius_part;
                                  define := define_part |}]> (stencils g)) g))
             {| _soln := soln; as_radius_base := radius_part;
                define := define_part |}) in Hp.
  - apply (setup_solution_selected _ _ _ _ _ Hp).
  - discriminate.
  - reflexivity.
  - exact Hne.
  - simpl. apply lookup_insert_eq.
Qed.

Lemma ctor_then_select_witness :
  stencilSoln
    (parseOpts sample_env "yc" ["-stencil"; "ssg"]
       (yc_solution_base_ctor sample_env "ssg" None (fun _ => None)
          sample_globals).2).2 =
  Some {| _soln := sample_soln "ssg"; as_radius_base := None;
          define := fun _ => None |}.
Proof.
  apply (ctor_then_select sample_env "yc" "ssg" None (fun _ => None)
           sample_globals
           (yc_solution_base_ctor sample_env "ssg" None (fun _ => None)
              sample_globals).2
           (parseOpts sample_env "yc" ["-stencil"; "ssg"]
              (yc_solution_base_ctor sample_env "ssg" None (fun _ => None)
                 sample_globals).2).2
           {| _soln := sample_soln "ssg"; as_radius_base := None;
              define := fun _ => None |}
           (parseOpts sample_env "yc" ["-stencil"; "ssg"]
              (yc_solution_base_ctor sample_env "ssg" None (fun _ => None)
                 sample_globals).2).1).
  - vm_compute. reflexivity.
  - discriminate.
  - apply surjective_pairing.
Defined.

(** X9: once a constructor has registered a name, every later
    construction under that name throws, whatever the parts of the new
    object, and the registry keeps the first object. *)
Theorem ctor_twice_throws (E : Env) (sname : string)
    (radius_part radius_part' : option yc_solution_with_radius_base)
    (define_part define_part' : list call -> option string)
    (g g' : globals) (this : yc_solution_base) :
  yc_solution_base_ctor E sname radius_part define_part g = (Ret this, g') ->
  yc_solution_base_ctor E sname radius_part' define_part' g' =
    (Thrown ("Error: stencil '" +:+ sname +:+ "' already defined"), g') /\
  stencils g' !! sname = Some this.
Proof.
  unfold yc_solution_base_ctor. rewrite !bind_run. cbn [get].
  destruct (bool_decide (is_Some (stencils g !! sname))); [discriminate|].
  destruct (new_solution E sname) as [soln|]; [|discriminate].
  intros [= <- <-]. simpl.
  rewrite bool_decide_eq_true_2.
  - split; [reflexivity | apply lookup_insert_eq].
  - rewrite lookup_insert_eq. eexists. reflexivity.
Qed.

Lemma ctor_twice_throws_witness :
  (yc_solution_base_ctor sample_env "ssg" (Some sample_radius) (fun _ => None)
     (yc_solution_base_ctor sample_env "ssg" None (fun _ => None)
        sample_globals).2).1 =
  Thrown "Error: stencil 'ssg' already defined".
Proof.
  destruct (ctor_twice_throws sample_env "ssg" None (Some sample_radius)
              (fun _ => None) (fun _ => None) sample_globals
              (yc_solution_base_ctor sample_env "ssg" None (fun _ => None)
                 sample_globals).2
              {| _soln := sample_soln "ssg"; as_radius_base := None;
                 define := fun _ => None |}) as (Hthrow & _).
  - vm_compute. reflexivity.
  - rewrite Hthrow. reflexivity.
Defined.





(** X12: a run whose options ask for no output and whose solution is set
    up without error renders nothing: it writes the hint to use [-p] and
    the line that it is done, and ends with exit code 0. *)
Theorem no_outputs_hint (E : Env) (cmd : string) (args : list string)
    (g g1 : globals) :
  parseOpts E cmd args (started E g) = (Ret tt, g1) ->
  outfiles g1 = ∅ ->
  main E cmd args g =
  (ExitStatus 0, put_cout (cout g1 ++ [no_output_hint; done_line]) g1).
Proof.
  intros Hp Hout. rewrite main_run. unfold main_body.
  rewrite (bind_Ret _ _ _ _ _ Hp). unfold emit_outputs.
  rewrite bind_run. cbn [get]. rewrite Hout.
  rewrite bool_decide_eq_true_2 by apply map_size_empty.
  unfold map_iter. rewrite map_to_list_empty. simpl.
  rewrite <- app_assoc. reflexivity.
Qed.

Lemma no_outputs_hint_witness :
  main sample_env "yc" ["-stencil"; "awp"; "-no-opt-cse"] sample_globals =
  (ExitStatus 0,
   put_cout
     (cout (parseOpts sample_env "yc" ["-stencil"; "awp"; "-no-opt-cse"]
              (started sample_env sample_globals)).2 ++
      [no_output_hint; done_line])
     (parseOpts sample_env "yc" ["-stencil"; "awp"; "-no-opt-cse"]
        (started sample_env sample_globals)).2).
Proof.
  apply no_outputs_hint.
  - vm_compute. reflexivity.
  - vm_compute. reflexivity.
Defined.

Lemma bind_Thrown_inv {A B : Type} (m : M A) (k : A -> M B) g msg g' :
  (m ≫= k) g = (Thrown msg, g') ->
  m g = (Thrown msg, g') \/
  exists a g1, m g = (Ret a, g1) /\ k a g1 = (Thrown msg, g').
Proof.
  rewrite bind_run. destruct (m g) as [[a|c|msg'|] g1]; try discriminate.
  - intros H. right. exists a, g1. split; [reflexivity | exact H].
  - intros [= -> ->]. left. reflexivity.
Qed.

Lemma parse_loop_app_Thrown E cmd suf pre :
  forall g msg g1,
    parse_loop E cmd pre g = (Thrown msg, g1) ->
    parse_loop E cmd (pre ++ suf) g = (Thrown msg, g1).
Proof.
  apply (parse_loop_cases E cmd (fun pre m =>
    forall g msg g1, m g = (Thrown msg, g1) ->
      parse_loop E cmd (pre ++ suf) g = (Thrown msg, g1))).
  - intros g msg g1 H. discriminate.
  - intros opt rest _ g msg g1 H. discriminate.
  - intros opt rest _ _ g msg g1 H. discriminate.
  - intros opt rest f Ho Hh Hf IH g msg g1 H.
    cbn [app parse_loop]. rewrite Ho, Hh, Hf.
    apply bind_Thrown_inv in H as [H|([] & g0 & H0 & H)]; [discriminate|].
    rewrite (bind_Ret _ _ _ _ _ H0). apply IH, H.
  - intros opt _ _ _ g msg g1 H. discriminate.
  - intros opt argop rest act Ho Hh Hf Hs IH g msg g1 H.
    cbn [app parse_loop]. rewrite Ho, Hh, Hf, Hs.
    apply bind_Thrown_inv in H as [H|([] & g0 & H0 & H)].
    + rewrite bind_run, H. reflexivity.
    + rewrite (bind_Ret _ _ _ _ _ H0). apply IH, H.
  - intros opt argop _ _ _ _ _ g msg g1 H. discriminate.
  - intros opt argop argop2 rest Ho Hh Hf Hs -> IH g msg g1 H.
    cbn [app parse_loop]. rewrite Ho, Hh, Hf, Hs.
    cbn [String.eqb Ascii.eqb Bool.eqb].
    apply bind_Thrown_inv in H as [H|([] & g0 & H0 & H)]; [discriminate|].
    rewrite (bind_Ret _ _ _ _ _ H0). apply IH, H.
  - intros opt argop rest f Ho Hh Hf Hs Hp Hi IH g msg g1 H.
    cbn [app parse_loop]. rewrite Ho, Hh, Hf, Hs.
    destruct (String.eqb_spec opt "-p") as [|_]; [contradiction|].
    rewrite Hi.
    apply bind_Thrown_inv in H as [H|([] & g0 & H0 & H)]; [discriminate|].
    rewrite (bind_Ret _ _ _ _ _ H0). apply IH, H.
  - intros opt argop rest _ _ _ _ _ _ g msg g1 H. discriminate.
Qed.

(** X13: the options are handled one after the other, each on the globals
    that the ones before it left.  Arguments that the loop goes through
    whole and without error can be cut off: the loop over them and what
    follows is the loop over what follows, from the globals they leave.
    And an exception thrown among some first arguments is thrown, from the
    same globals, whatever follows them. *)
Theorem option_scan_composes (E : Env) (cmd : string) (pre suf : list string)
    (g g1 : globals) :
  (parse_loop E cmd pre g = (Ret [], g1) ->
   parse_loop E cmd (pre ++ suf) g = parse_loop E cmd suf g1) /\
  (forall msg,
     parse_loop E cmd pre g = (Thrown msg, g1) ->
     parse_loop E cmd (pre ++ suf) g = (Thrown msg, g1)).
Proof.
  split.
  - apply parse_loop_app.
  - intros msg. apply parse_loop_app_Thrown.
Qed.

(** ** More on [StencilContext::compare] *)

Section CompareMore.
Context {RealvGridBase : Type}.
Variable grid_get_name : RealvGridBase -> string.
Variable grid_compare : RealvGridBase -> RealvGridBase -> Z.

Lemma sum_counts_zip_nonneg (l1 l2 : list RealvGridBase) :
  (forall a b, 0 <= grid_compare a b) ->
  0 <= sum_counts (zip_with grid_compare l1 l2).
Proof.
  intros Hnn. unfold sum_counts. revert l2.
  induction l1 as [|a l1 IH]; intros [|b l2]; simpl; try lia.
  specialize (IH l2). specialize (Hnn a b). lia.
Qed.

(** X14: when the comparison of two grids never counts below zero, a
    context with more grids than the reference never compares as equal:
    the result is at least the number of grids that the reference lacks. *)
Theorem compare_detects_missing (this ref : StencilContext RealvGridBase) :
  (forall a b, 0 <= grid_compare a b) ->
  (length (gridPtrs ref) < length (gridPtrs this))%nat ->
  Z.of_nat (length (gridPtrs this) - length (gridPtrs ref)) <=
    (compare RealvGridBase grid_get_name grid_compare this ref).1 /\
  0 < (compare RealvGridBase grid_get_name grid_compare this ref).1.
Proof.
  intros Hnn Hlen. unfold compare.
  destruct (compare_loop_split grid_get_name grid_compare ref
              (gridPtrs this) 0 0 []) as [-> _].
  rewrite drop_0, Nat.sub_0_r.
  pose proof (sum_counts_zip_nonneg (gridPtrs this) (gridPtrs ref) Hnn).
  split; lia.
Qed.

End CompareMore.

Lemma compare_detects_missing_witness :
  0 < (compare (list Z) (fun _ => "grid") sample_grid_compare
         {| name := "opt"; gridPtrs := [[1; 2]; [3]] |}
         {| name := "ref"; gridPtrs := [[1; 2]] |}).1.
Proof.
  apply (compare_detects_missing (fun _ => "grid") sample_grid_compare
           {| name := "opt"; gridPtrs := [[1; 2]; [3]] |}
           {| name := "ref"; gridPtrs := [[1; 2]] |}).
  - intros a b. unfold sample_grid_compare.
    destruct (bool_decide (a = b)); lia.
  - simpl. lia.
Defined.

(** ** [get_num_bytes] and the list of solutions of [usage] *)

Section BytesFacts.
Context {RealvGridBase : Type}.
Variable grid_get_num_bytes : RealvGridBase -> Z.



End BytesFacts.





Lemma option_scan_composes_witness :
  parse_loop sample_env "yc" (["-stencil"; "awp"; "-fus"] ++ ["-radius"; "3"])
    sample_globals =
  parse_loop sample_env "yc" ["-radius"; "3"]
    (parse_loop sample_env "yc" ["-stencil"; "awp"; "-fus"] sample_globals).2.
Proof.
  apply (option_scan_composes sample_env "yc" ["-stencil"; "awp"; "-fus"]
           ["-radius"; "3"] sample_globals).
  reflexivity.
Defined.



